(** * latency_sysdiff: the snapshot comparator

    A shallow embedding of [src/latency_sysdump/latency_sysdiff.py]: the path
    flattener, the severity classifier, the diff engine, the reports and
    the exit status, with the properties of the comparator stated over
    them.

    Conventions of the embedding:
    - a Python [str] is a [string]; its characters are read as code points
      below 256 (that fixes [str.lower], [str.strip] and the order used by
      [sorted]);
    - a JSON document is a [Value]; a Python [dict] loaded from JSON is an
      association list in insertion order, with unique keys;
    - the flattened map and the diff result are finite maps ([gmap]);
    - a Python exception is [None] in an [option] result;
    - [repr] of a float is not part of the program text and is a parameter
      ([float_repr]) of every definition that stringifies a value. *)

From Stdlib Require Import ZArith Lia Ascii String List Decimal DecimalString.
From Stdlib Require Import DecimalNat DecimalZ Floats.SpecFloat.
From stdpp Require Import gmap strings list sorting.

Local Open Scope Z_scope.

(* ===================================================================== *)
(** * Strings: the [str] methods the comparator uses                      *)
(* ===================================================================== *)

Module Str.

Definition code (c : ascii) : N := N_of_ascii c.

(** [str.lower] on one character: A-Z, and the upper-case letters of the
    Latin-1 block (all of 192..222 but the multiplication sign 215). *)
Definition lower_char (c : ascii) : ascii :=
  let n := code c in
  if ((65 <=? n) && (n <=? 90))%N
     || ((192 <=? n) && (n <=? 222) && negb (n =? 215))%N
  then ascii_of_N (n + 32) else c.

Fixpoint lower (s : string) : string :=
  match s with
  | EmptyString => EmptyString
  | String c s' => String (lower_char c) (lower s')
  end.

(** [str.isspace] on one character. *)
Definition is_space (c : ascii) : bool :=
  let n := code c in
  (((9 <=? n) && (n <=? 13)) || ((28 <=? n) && (n <=? 32))
   || (n =? 133) || (n =? 160))%N.

Fixpoint lstrip (s : string) : string :=
  match s with
  | String c s' => if is_space c then lstrip s' else s
  | EmptyString => EmptyString
  end.

(** [rstrip]: a trailing run of white space is dropped. *)
Fixpoint rstrip (s : string) : string :=
  match s with
  | EmptyString => EmptyString
  | String c s' =>
      match rstrip s' with
      | EmptyString => if is_space c then EmptyString else String c EmptyString
      | r => String c r
      end
  end.

Definition strip (s : string) : string := rstrip (lstrip s).

(** [s.startswith(p)] *)
Definition startswith (s p : string) : bool := String.prefix p s.

(** [needle in s] *)
Fixpoint contains (needle s : string) : bool :=
  String.prefix needle s ||
  match s with
  | EmptyString => false
  | String _ s' => contains needle s'
  end.

Fixpoint drop (n : nat) (s : string) : string :=
  match n, s with
  | O, _ => s
  | S n', String _ s' => drop n' s'
  | S _, EmptyString => EmptyString
  end.

(** [s.endswith(p)] *)
Definition endswith (s p : string) : bool :=
  (String.length p <=? String.length s)%nat
  && String.eqb (drop (String.length s - String.length p) s) p.

(** [s.split(sep, 1)]: the text before and after the first occurrence of
    [sep], when there is one. *)
Fixpoint split_once (sep s : string) : option (string * string) :=
  if String.prefix sep s then Some (EmptyString, drop (String.length sep) s)
  else match s with
       | EmptyString => None
       | String c s' =>
           match split_once sep s' with
           | Some (a, b) => Some (String c a, b)
           | None => None
           end
       end.

(** [s[:n]] for a Python integer [n]: the first [n] characters, all but
    the last [-n] when [n] is negative. *)
Fixpoint take (n : nat) (s : string) : string :=
  match n, s with
  | O, _ => EmptyString
  | S n', String c s' => String c (take n' s')
  | S _, EmptyString => EmptyString
  end.

Definition slice_to (s : string) (n : Z) : string :=
  if (0 <=? n)%Z then take (Z.to_nat n) s
  else take (String.length s - Z.to_nat (- n)) s.



(** [str(i)] of a natural number, and of an integer. *)
Definition of_nat (n : nat) : string := NilZero.string_of_uint (Nat.to_uint n).
Definition of_Z (z : Z) : string := NilZero.string_of_int (Z.to_int z).

End Str.

(* ===================================================================== *)
(** * Values                                                              *)
(* ===================================================================== *)

(** The leaves of a document: [None], [bool], [int], [float], [str]. *)
Inductive Scalar : Type :=
| SNull
| SBool (b : bool)
| SInt (z : Z)
| SFloat (f : spec_float)
| SStr (s : string).

(** A document: a leaf, a [list] or a [dict] with its entries in insertion
    order. *)
Unset Elimination Schemes.
Inductive Value : Type :=
| VScalar (s : Scalar)
| VList (vs : list Value)
| VDict (kvs : list (string * Value)).
Set Elimination Schemes.

Abbreviation VNull := (VScalar SNull).

(** ** Equality of leaves, as Python's [==] decides it *)

(** The number a leaf stands for in a comparison: [bool] is a subclass of
    [int], so [True] is 1 and [False] is 0. A finite float is the dyadic
    [m * 2^e]. *)
Inductive Num : Type :=
| NDyadic (m e : Z)
| NInf (neg : bool)
| NNan.

Definition float_num (f : spec_float) : Num :=
  match f with
  | S754_zero _ => NDyadic 0 0
  | S754_infinity s => NInf s
  | S754_nan => NNan
  | S754_finite s m e => NDyadic (if s then Z.neg m else Z.pos m) e
  end.

Definition as_num (s : Scalar) : option Num :=
  match s with
  | SBool b => Some (NDyadic (if b then 1 else 0) 0)
  | SInt z => Some (NDyadic z 0)
  | SFloat f => Some (float_num f)
  | SNull | SStr _ => None
  end.

(** Exact comparison of two numbers; a NaN equals nothing. *)
Definition num_eqb (a b : Num) : bool :=
  match a, b with
  | NDyadic m1 e1, NDyadic m2 e2 =>
      let e := Z.min e1 e2 in
      m1 * 2 ^ (e1 - e) =? m2 * 2 ^ (e2 - e)
  | NInf s1, NInf s2 => Bool.eqb s1 s2
  | _, _ => false
  end.

(** [a == b] on leaves. *)
Definition py_eq (a b : Scalar) : bool :=
  match a, b with
  | SNull, SNull => true
  | SStr x, SStr y => String.eqb x y
  | _, _ =>
      match as_num a, as_num b with
      | Some x, Some y => num_eqb x y
      | _, _ => false
      end
  end.

(** The Python type of a leaf. *)
Inductive PyType : Type := TNone | TBool | TInt | TFloat | TStr.

Definition type_of (s : Scalar) : PyType :=
  match s with
  | SNull => TNone
  | SBool _ => TBool
  | SInt _ => TInt
  | SFloat _ => TFloat
  | SStr _ => TStr
  end.

(** ** Truth value *)

Definition scalar_truthy (s : Scalar) : bool :=
  match s with
  | SNull => false
  | SBool b => b
  | SInt z => negb (z =? 0)
  | SFloat f => match f with S754_zero _ => false | _ => true end
  | SStr s => match s with EmptyString => false | _ => true end
  end.

Definition truthy (v : Value) : bool :=
  match v with
  | VScalar s => scalar_truthy s
  | VList vs => match vs with [] => false | _ => true end
  | VDict kvs => match kvs with [] => false | _ => true end
  end.

(** ** Dictionary access *)

(** The value stored under [k] in the entries of a [dict]. *)
Fixpoint dict_get (kvs : list (string * Value)) (k : string) : option Value :=
  match kvs with
  | [] => None
  | (k', v) :: kvs' => if String.eqb k' k then Some v else dict_get kvs' k
  end.

(** [d.get(k)]: [None] of Python when the key is missing; an
    [AttributeError] when [d] is not a [dict]. *)
Definition py_get (d : Value) (k : string) : option Value :=
  match d with
  | VDict kvs => Some (default VNull (dict_get kvs k))
  | _ => None
  end.

(** [v or {}] *)
Definition or_empty (v : Value) : Value :=
  if truthy v then v else VDict [].

(** [d.keys()] *)
Definition py_keys (d : Value) : option (list string) :=
  match d with
  | VDict kvs => Some (kvs.*1)
  | _ => None
  end.

(* ===================================================================== *)
(** * flatten                                                             *)
(* ===================================================================== *)

(** The key under which an entry [k] of a [dict] at [prefix] is flattened. *)
Definition dict_key (prefix k : string) : string :=
  match prefix with
  | EmptyString => k
  | _ => prefix +:+ "." +:+ k
  end.

(** The key under which element [i] of a [list] at [prefix] is flattened. *)
Definition list_key (prefix : string) (i : nat) : string :=
  prefix +:+ "[" +:+ Str.of_nat i +:+ "]".

(** [res.update(m)] is [m ∪ res]: the entries of [m] win. *)
Fixpoint flatten (d : Value) (prefix : string) {struct d} : gmap string Scalar :=
  match d with
  | VDict kvs =>
      (fix items (kvs : list (string * Value)) (res : gmap string Scalar) :=
         match kvs with
         | [] => res
         | (k, v) :: kvs' => items kvs' (flatten v (dict_key prefix k) ∪ res)
         end) kvs ∅
  | VList vs =>
      (fix enum (vs : list Value) (i : nat) (res : gmap string Scalar) :=
         match vs with
         | [] => res
         | v :: vs' => enum vs' (S i) (flatten v (list_key prefix i) ∪ res)
         end) vs 0%nat ∅
  | VScalar s => {[ prefix := s ]}
  end.

(* ===================================================================== *)
(** * parse_int                                                           *)
(* ===================================================================== *)

(** ** [int(s, 0)]

    The text is read as an integer literal of the language: an optional
    sign, then a decimal numeral or a numeral with a base prefix. (The cap
    that later interpreters put on the length of a decimal numeral is not
    modelled.) *)

(** The value of a character as a digit: 0-9, then the letters from 10. *)
Definition digit_value (c : ascii) : option Z :=
  let n := Z.of_N (Str.code c) in
  if (48 <=? n) && (n <=? 57) then Some (n - 48)
  else if (97 <=? n) && (n <=? 122) then Some (n - 87)
  else if (65 <=? n) && (n <=? 90) then Some (n - 55)
  else None.

(** The digits of the numeral: digits below [base], single underscores
    between them, nothing after them. [prev_us] tells that the previous
    character was an underscore; the result is the value and the number of
    digits read. *)
Fixpoint scan_digits (base : Z) (s : string) (prev_us : bool) (acc : Z) (n : nat)
  : option (Z * nat) :=
  match s with
  | EmptyString => if prev_us then None else Some (acc, n)
  | String c s' =>
      if Ascii.eqb c "_" then
        if prev_us then None else scan_digits base s' true acc n
      else
        match digit_value c with
        | Some d =>
            if d <? base then scan_digits base s' false (acc * base + d) (S n)
            else None
        | None => None
        end
  end.

(** The sign: what is left of the text, and whether the value is negated. *)
Definition read_sign (s : string) : bool * string :=
  match s with
  | String "+" r => (false, r)
  | String "-" r => (true, r)
  | _ => (false, s)
  end.

(** The base chosen from the first two characters, whether a non-zero value
    is an error (a leading zero without a prefix), and the text after the
    prefix and the one underscore allowed behind it. *)
Definition read_base (s : string) : Z * bool * string :=
  let after_prefix (r : string) :=
    match r with String "_" r' => r' | _ => r end in
  match s with
  | String "0" (String c r) =>
      if Ascii.eqb c "x" || Ascii.eqb c "X" then (16, false, after_prefix r)
      else if Ascii.eqb c "o" || Ascii.eqb c "O" then (8, false, after_prefix r)
      else if Ascii.eqb c "b" || Ascii.eqb c "B" then (2, false, after_prefix r)
      else (10, true, s)
  | String "0" EmptyString => (10, true, s)
  | _ => (10, false, s)
  end.

Definition int_base0 (s : string) : option Z :=
  let '(neg, s1) := read_sign s in
  let '(base, zero_only, s2) := read_base s1 in
  match s2 with
  | String "_" _ => None
  | _ =>
      match scan_digits base s2 false 0 0 with
      | Some (v, n) =>
          if zero_only && negb (v =? 0) then None
          else if (n =? 0)%nat then None
          else Some (if neg then - v else v)
      | None => None
      end
  end.

(* ===================================================================== *)
(** * The classifier and the diff engine                                  *)
(* ===================================================================== *)

(** [SEV_ORDER.get(sev, 99)] *)
Definition SEV_ORDER (sev : string) : nat :=
  if String.eqb sev "CRITICAL" then 0
  else if String.eqb sev "WARNING" then 1
  else if String.eqb sev "INFO" then 2
  else 99.

(** The context of a classification. *)
Record Context : Type := { irq_affinity_present : bool }.

(** One entry of the diff: the [dict] with the keys [path], [old], [new],
    [severity] and [note]; a [note] of [None] is Python's [None]. *)
Record DiffEntry : Type := {
  path : string;
  old : Scalar;
  new : Scalar;
  severity : string;
  note : option string;
}.

Definition crit_feats : list string :=
  ["generic-receive-offload"; "large-receive-offload"; "tcp-segmentation-offload";
   "tso"; "gso"; "lro"; "rx-checksumming"; "tx-checksumming"; "scatter-gather"].

(** [path.split(".", 1)[0] if "." in path else path] *)
Definition category_of (path : string) : string :=
  if Str.contains "." path then
    match Str.split_once "." path with
    | Some (a, _) => a
    | None => path
    end
  else path.

(** [compute_irq_affinity_present]: any exception gives [False]. *)
Definition compute_irq_affinity_present (d : Value) : bool :=
  match
    irq ← py_get d "irq";
    aff ← py_get (or_empty irq) "smp_affinity_list";
    Some (or_empty aff)
  with
  | Some aff => truthy aff
  | None => false
  end.

(** The names of the interfaces of a document:
    [set(((d.get("network") or {}).get("interfaces") or {}).keys())]. *)
Definition iface_names (d : Value) : option (gset string) :=
  net ← py_get d "network";
  ifs ← py_get (or_empty net) "interfaces";
  ks ← py_keys (or_empty ifs);
  Some (list_to_set ks).

(** [sorted] on strings. *)
Definition sorted_strings (l : list string) : list string :=
  merge_sort String.le l.

(** [diffs[cat].append(e)] on a [defaultdict(list)]. *)
Definition append_entry (cat : string) (e : DiffEntry)
    (diffs : gmap string (list DiffEntry)) : gmap string (list DiffEntry) :=
  <[cat := default [] (diffs !! cat) ++ [e]]> diffs.

Definition removed_entry (iface : string) : DiffEntry :=
  {| path := "network.interfaces." +:+ iface;
     old := SStr "present"; new := SStr "absent";
     severity := "INFO"; note := Some "interface removed" |}.

Definition added_entry (iface : string) : DiffEntry :=
  {| path := "network.interfaces." +:+ iface;
     old := SStr "absent"; new := SStr "present";
     severity := "INFO"; note := Some "interface added" |}.

(** The context of a diff run. *)
Definition diff_context (old new : Value) : Context :=
  {| irq_affinity_present :=
       compute_irq_affinity_present old || compute_irq_affinity_present new |}.

(** [value_changed] *)
Definition value_changed (a b : Scalar) : bool := negb (py_eq a b).

Section Comparator.

(** [repr] of a float. *)
Variable float_repr : spec_float → string.

(** [str(v)] of a leaf. *)
Definition py_str (v : Scalar) : string :=
  match v with
  | SNull => "None"
  | SBool true => "True"
  | SBool false => "False"
  | SInt z => Str.of_Z z
  | SFloat f => float_repr f
  | SStr s => s
  end.

(** [parse_int]: [int(str(v).strip(), 0)], [None] on any exception. *)
Definition parse_int (v : Scalar) : option Z :=
  int_base0 (Str.strip (py_str v)).

(** The rule of the rings and of the channels. *)
Definition reduced (old new : Scalar) : bool :=
  match parse_int old, parse_int new with
  | Some o, Some n => n <? o
  | _, _ => false
  end.

(** The rule of the coalesce settings. *)
Definition drastic (old new : Scalar) : bool :=
  match parse_int old, parse_int new with
  | Some o, Some n => 32 <=? Z.abs (n - o)
  | _, _ => false
  end.

Definition severity_of (p : string) (old new : Scalar) (context : Context)
  : string * option string :=
  if String.eqb p "kernel.uname.release" then ("CRITICAL", None)
  else if String.eqb p "kernel.cmdline" then ("CRITICAL", None)
  else if String.eqb p "timekeeping.clocksource_current" then ("CRITICAL", None)
  else if String.eqb p "cpu_topology.smt_active" then ("CRITICAL", None)
  else if Str.startswith p "cpu_topology.per_cpu_governors." then
    let newv := match new with
                | SNull => ""
                | _ => Str.lower (py_str new)
                end in
    if negb (String.eqb newv "") && negb (String.eqb newv "performance")
    then ("CRITICAL", Some "governor != performance")
    else ("WARNING", None)
  else if String.eqb p "cpu_topology.lscpu_hash" then
    ("CRITICAL", Some "CPU topology changed")
  else if String.eqb p "memory.transparent_hugepage.enabled" then ("CRITICAL", None)
  else if Str.startswith p "irq.smp_affinity_list." then ("CRITICAL", None)
  else if Str.startswith p "network.interfaces."
          && Str.contains ".ethtool.features." p then
    (* [p.split(".ethtool.features.", 1)[1]]: the separator occurs in [p] *)
    let feat := match Str.split_once ".ethtool.features." p with
                | Some (_, b) => b
                | None => ""
                end in
    if existsb (λ f, Str.contains f feat) crit_feats
    then ("CRITICAL", None) else ("WARNING", None)
  else if Str.startswith p "network.interfaces."
          && Str.contains ".ethtool.rings." p then
    if reduced old new then ("CRITICAL", Some "ring size reduced")
    else ("INFO", None)
  else if Str.startswith p "network.interfaces."
          && Str.contains ".ethtool.channels." p then
    if reduced old new then ("CRITICAL", Some "channels reduced")
    else ("INFO", None)
  else if Str.startswith p "network.interfaces."
          && Str.contains ".ethtool.coalesce." p then
    if drastic old new then ("CRITICAL", Some "coalesce changed drastically")
    else ("WARNING", None)
  else if String.eqb p "toolchain.libstdcxx_max_glibcxx" then
    ("CRITICAL", Some "libstdc++ ABI level changed")
  else if String.eqb p "services_sysctl.irqbalance.state" then
    if irq_affinity_present context
    then ("CRITICAL", Some "irqbalance change with IRQ pinning")
    else ("WARNING", None)
  else if String.eqb p "memory.overcommit_memory"
          || String.eqb p "memory.swappiness" then ("WARNING", None)
  else if Str.startswith p "memory.ksm." then ("WARNING", None)
  else if Str.endswith p ".mtu" && Str.startswith p "network.interfaces." then
    ("WARNING", None)
  else if Str.startswith p "toolchain." then ("WARNING", None)
  else if Str.startswith p "network.routes." then ("WARNING", None)
  else if Str.startswith p "services_sysctl.sysctl." then ("WARNING", None)
  else if Str.startswith p "timekeeping.ptp_devices" then ("INFO", None)
  else if Str.startswith p "network.interfaces." then ("INFO", None)
  else if Str.startswith p "containers." then ("INFO", None)
  else ("INFO", None).

(** The entry of a changed address [k]. *)
Definition leaf_entry (context : Context) (k : string) (a b : Scalar) : DiffEntry :=
  let '(sev, note) := severity_of k a b context in
  {| path := k; old := a; new := b; severity := sev; note := note |}.

(** One turn of the loop over the sorted addresses. *)
Definition diff_step (f_old f_new : gmap string Scalar) (context : Context)
    (diffs : gmap string (list DiffEntry)) (k : string)
  : gmap string (list DiffEntry) :=
  let a := default SNull (f_old !! k) in
  let b := default SNull (f_new !! k) in
  if negb (value_changed a b) then diffs
  else append_entry (category_of k) (leaf_entry context k a b) diffs.

Definition diff_dumps (old new : Value) (only_changed : bool)
  : option (gmap string (list DiffEntry)) :=
  let f_old := flatten old "" in
  let f_new := flatten new "" in
  let keys : gset string := dom f_old ∪ dom f_new in
  let context := diff_context old new in
  let diffs : gmap string (list DiffEntry) := ∅ in
  old_ifaces ← iface_names old;
  new_ifaces ← iface_names new;
  let diffs :=
    foldl (λ diffs iface, append_entry "network" (removed_entry iface) diffs)
          diffs (sorted_strings (elements (old_ifaces ∖ new_ifaces))) in
  let diffs :=
    foldl (λ diffs iface, append_entry "network" (added_entry iface) diffs)
          diffs (sorted_strings (elements (new_ifaces ∖ old_ifaces))) in
  let diffs :=
    foldl (diff_step f_old f_new context) diffs (sorted_strings (elements keys)) in
  Some (if only_changed then filter (λ kv, kv.2 ≠ []) diffs else diffs).

End Comparator.

(* ===================================================================== *)
(** * The renderers                                                       *)
(* ===================================================================== *)

(** The sort key of [write_md] and [print_console]:
    [(SEV_ORDER.get(it["severity"], 99), it["path"])], tuples compared
    component by component. *)
Definition entry_le (e1 e2 : DiffEntry) : Prop :=
  (SEV_ORDER (severity e1) < SEV_ORDER (severity e2))%nat
  ∨ (SEV_ORDER (severity e1) = SEV_ORDER (severity e2)
     ∧ String.le (path e1) (path e2)).

Global Instance entry_le_dec : RelDecision entry_le.
Proof. intros e1 e2. unfold entry_le. apply _. Defined.

Definition entry_key (e : DiffEntry) : nat * string :=
  (SEV_ORDER (severity e), path e).

(** [sorted(l, key=...)] and [l.sort(key=...)] on entries. The sort is
    stable: entries with the same key keep their order. *)
Fixpoint insert_entry (e : DiffEntry) (l : list DiffEntry) : list DiffEntry :=
  match l with
  | [] => [e]
  | e' :: l' =>
      if decide (entry_le e e') then e :: l else e' :: insert_entry e l'
  end.

Definition sort_entries (l : list DiffEntry) : list DiffEntry :=
  foldr insert_entry [] l.

(** [write_md]: the items listed under one category,
    [sorted(diffs[cat], key=...)]. *)
Definition md_items (l : list DiffEntry) : list DiffEntry :=
  sort_entries l.

(** [write_md]: the sections of the report, in the order of
    [sorted(diffs.keys())]. *)
Definition md_sections (diffs : gmap string (list DiffEntry))
  : list (string * list DiffEntry) :=
  (λ cat, (cat, md_items (default [] (diffs !! cat))))
    <$> sorted_strings (elements (dom diffs)).

(** One entry as the [dict] literal that [diff_dumps] appends. *)
Definition entry_dict (e : DiffEntry) : list (string * Value) :=
  [("path", VScalar (SStr (path e)));
   ("old", VScalar (old e));
   ("new", VScalar (new e));
   ("severity", VScalar (SStr (severity e)));
   ("note", match note e with
            | Some n => VScalar (SStr n)
            | None => VNull
            end)].

(** [json.dump(..., sort_keys=True)] writes the items of every mapping in
    ascending order of key. (The keys of a [dict] are distinct, so the
    order of the result does not depend on the sort used.) *)
Definition key_le (a b : string * Value) : Prop := String.le a.1 b.1.

Global Instance key_le_dec : RelDecision key_le.
Proof. intros a b. unfold key_le. apply _. Defined.

Definition sort_items (kvs : list (string * Value)) : list (string * Value) :=
  merge_sort key_le kvs.

(** [write_json]: the document written, a mapping from each category to
    the list of its entries, each entry an object. *)
Definition entry_object (e : DiffEntry) : Value :=
  VDict (sort_items (entry_dict e)).

Definition json_items (diffs : gmap string (list DiffEntry))
  : list (string * Value) :=
  prod_map id (λ es, VList (entry_object <$> es)) <$> map_to_list diffs.

Definition json_doc (diffs : gmap string (list DiffEntry)) : Value :=
  VDict (sort_items (json_items diffs)).

(* ===================================================================== *)
(** * Notions used to state the properties                                *)
(* ===================================================================== *)

(** A [repr] to run the comparator on documents that hold no float. *)
Definition repr_nan : spec_float → string := λ _, "nan".

(** The bucket of a category in a diff result; no bucket reads as empty. *)
Definition bucket (diffs : gmap string (list DiffEntry)) (cat : string)
  : list DiffEntry := default [] (diffs !! cat).

(** The old and the new side of an address, a missing side read as
    [None]. *)
Definition side (f : gmap string Scalar) (k : string) : Scalar :=
  default SNull (f !! k).

(** The numbers among the leaves: [bool], [int] and [float]. *)
Definition is_number (s : Scalar) : bool :=
  match s with
  | SBool _ | SInt _ | SFloat _ => true
  | SNull | SStr _ => false
  end.

(** A synthetic entry: the entry of an interface removed or added. *)
Definition is_synthetic (e : DiffEntry) : Prop :=
  ∃ i, e = removed_entry i ∨ e = added_entry i.

(** ** The sequence of entries a run emits *)

Definition changed_entry (float_repr : spec_float → string)
    (f_old f_new : gmap string Scalar) (context : Context) (k : string)
  : option DiffEntry :=
  if value_changed (side f_old k) (side f_new k)
  then Some (leaf_entry float_repr context k (side f_old k) (side f_new k))
  else None.

Definition leaf_entries (float_repr : spec_float → string) (old new : Value)
  : list DiffEntry :=
  omap (changed_entry float_repr (flatten old "") (flatten new "")
          (diff_context old new))
       (sorted_strings (elements (dom (flatten old "") ∪ dom (flatten new "")))).

Definition synthetic_entries (old_ifaces new_ifaces : gset string)
  : list DiffEntry :=
  (removed_entry <$> sorted_strings (elements (old_ifaces ∖ new_ifaces)))
  ++ (added_entry <$> sorted_strings (elements (new_ifaces ∖ old_ifaces))).

(** [group es diffs]: the entries [es] appended in turn, each to the
    bucket of the category of its path. *)
Definition group (es : list DiffEntry) (diffs : gmap string (list DiffEntry))
  : gmap string (list DiffEntry) :=
  foldl (λ diffs e, append_entry (category_of (path e)) e diffs) diffs es.

(** The whole sequence: the synthetic entries, then the entries of the
    changed addresses. *)
Definition emitted (float_repr : spec_float → string) (old new : Value)
    (old_ifaces new_ifaces : gset string) : list DiffEntry :=
  synthetic_entries old_ifaces new_ifaces ++ leaf_entries float_repr old new.

(** No bucket of a result is empty. *)
Definition no_empty_bucket (diffs : gmap string (list DiffEntry)) : Prop :=
  ∀ c l, diffs !! c = Some l → l ≠ [].

(** ** The shape of a snapshot *)

(** The value under key [k] of a mapping. *)
Definition subtree (d : Value) (k : string) : option Value :=
  match d with
  | VDict kvs => dict_get kvs k
  | _ => None
  end.

Definition mapping_or_null (o : option Value) : bool :=
  match o with
  | None | Some VNull | Some (VDict _) => true
  | _ => false
  end.

Definition is_mapping (d : Value) : bool :=
  match d with VDict _ => true | _ => false end.

(** The document is a mapping; its [network] section and the [interfaces]
    in it are mappings where they are present and not null. *)
Definition network_shape (d : Value) : bool :=
  is_mapping d
  && mapping_or_null (subtree d "network")
  && mapping_or_null (subtree d "network" ≫= λ n, subtree n "interfaces").

(** A section that a run can read: missing, falsy, or a mapping. *)
Definition usable (o : option Value) : bool :=
  match o with
  | None => true
  | Some v => negb (truthy v) || is_mapping v
  end.

(** The documents on which [diff_dumps] raises no exception. *)
Definition runs (d : Value) : bool :=
  is_mapping d
  && usable (subtree d "network")
  && usable (subtree d "network" ≫= λ n, subtree n "interfaces").

(** No leaf of a flattened map is a NaN. *)
Definition nan_free (f : gmap string Scalar) : Prop :=
  ∀ k, f !! k ≠ Some (SFloat S754_nan).

(** The address and the two sides of an entry, and the same with the
    sides exchanged. *)
Definition sides (e : DiffEntry) : string * Scalar * Scalar :=
  (path e, old e, new e).

Definition sides_swapped (e : DiffEntry) : string * Scalar * Scalar :=
  (path e, new e, old e).

(** The names of the interfaces: the keys of [network.interfaces]. *)
Definition interfaces_of (d : Value) : list string :=
  match subtree d "network" ≫= λ n, subtree n "interfaces" with
  | Some (VDict kvs) => kvs.*1
  | _ => []
  end.

(** The subtree [irq.smp_affinity_list]. *)
Definition affinity_subtree (d : Value) : option Value :=
  subtree d "irq" ≫= λ irq, subtree irq "smp_affinity_list".

(** The number of entries directly under a container. *)
Definition entries_of (v : Value) : nat :=
  match v with
  | VDict kvs => length kvs
  | VList vs => length vs
  | VScalar _ => 0
  end.

(** The snapshot has at least one entry under [irq.smp_affinity_list]. *)
Definition has_affinity_entry (d : Value) : bool :=
  match affinity_subtree d with
  | Some aff => (0 <? entries_of aff)%nat
  | None => false
  end.

(** Where [irq.smp_affinity_list] is present it is a container or null,
    as the collector writes it. *)
Definition affinity_shape (d : Value) : bool :=
  match affinity_subtree d with
  | Some (VScalar s) => negb (scalar_truthy s)
  | _ => true
  end.

(** ** Paths and documents, for the flattener *)

(** One step into a document: a key of a mapping or an index of a
    sequence. *)
Inductive Seg : Type := Key (k : string) | Idx (i : nat).

(** The leaves of a document with the path that leads to each. *)
Fixpoint paths (d : Value) : list (list Seg * Scalar) :=
  match d with
  | VScalar s => [([], s)]
  | VList vs =>
      (fix enum (vs : list Value) (i : nat) :=
         match vs with
         | [] => []
         | v :: vs' => (prod_map (cons (Idx i)) id <$> paths v) ++ enum vs' (S i)
         end) vs 0%nat
  | VDict kvs =>
      (fix items (kvs : list (string * Value)) :=
         match kvs with
         | [] => []
         | (k, v) :: kvs' => (prod_map (cons (Key k)) id <$> paths v) ++ items kvs'
         end) kvs
  end.

(** The address of a path below [prefix]. *)
Fixpoint addr (prefix : string) (p : list Seg) : string :=
  match p with
  | [] => prefix
  | Key k :: p' => addr (dict_key prefix k) p'
  | Idx i :: p' => addr (list_key prefix i) p'
  end.

(** The values directly below a container, each with the step that leads
    to it, and the key under which a step is flattened. *)
Fixpoint enumerate (i : nat) (vs : list Value) : list (Seg * Value) :=
  match vs with
  | [] => []
  | v :: vs' => (Idx i, v) :: enumerate (S i) vs'
  end.

Definition children (d : Value) : list (Seg * Value) :=
  match d with
  | VScalar _ => []
  | VList vs => enumerate 0 vs
  | VDict kvs => (λ kv, (Key kv.1, kv.2)) <$> kvs
  end.

Definition child_key (prefix : string) (s : Seg) : string :=
  match s with
  | Key k => dict_key prefix k
  | Idx i => list_key prefix i
  end.

(** The leaves of a document below [prefix], each with its address, in the
    order of the document. *)
Definition leaves (d : Value) (prefix : string) : list (string * Scalar) :=
  prod_map (addr prefix) id <$> paths d.

(** What a path adds to a prefix that is not empty. *)
Fixpoint suffix (p : list Seg) : string :=
  match p with
  | [] => ""
  | Key k :: p' => "." +:+ k +:+ suffix p'
  | Idx i :: p' => "[" +:+ Str.of_nat i +:+ "]" +:+ suffix p'
  end.

(** The indices with which a path starts. *)
Fixpoint leading_indices (p : list Seg) : list Seg :=
  match p with
  | Idx i :: p' => Idx i :: leading_indices p'
  | _ => []
  end.

(** No mapping and no sequence of the document is empty. *)
Fixpoint no_empty (d : Value) : bool :=
  match d with
  | VScalar _ => true
  | VList vs =>
      match vs with [] => false | _ => true end && forallb no_empty vs
  | VDict kvs =>
      match kvs with [] => false | _ => true end
      && forallb (λ kv, no_empty kv.2) kvs
  end.

(** The characters that the address syntax gives a meaning. *)
Definition is_separator (c : ascii) : bool :=
  Ascii.eqb c "." || Ascii.eqb c "[".

Fixpoint no_separator (s : string) : bool :=
  match s with
  | EmptyString => true
  | String c s' => negb (is_separator c) && no_separator s'
  end.

(** A key that the address syntax can carry: not empty, without separator. *)
Definition plain_key (k : string) : bool :=
  negb (String.eqb k "") && no_separator k.

Fixpoint keys_plain (d : Value) : bool :=
  match d with
  | VScalar _ => true
  | VList vs => forallb keys_plain vs
  | VDict kvs => forallb (λ kv, plain_key kv.1 && keys_plain kv.2) kvs
  end.

(** The keys of every mapping are distinct, as in any [dict]. *)
Fixpoint keys_unique (d : Value) : bool :=
  match d with
  | VScalar _ => true
  | VList vs => forallb keys_unique vs
  | VDict kvs =>
      bool_decide (NoDup (kvs.*1)) && forallb (λ kv, keys_unique kv.2) kvs
  end.

(** A path all of whose keys the address syntax can carry. *)
Definition plain_path (q : list Seg) : bool :=
  forallb (λ s, match s with Key k => plain_key k | Idx _ => true end) q.

(** The value one step below a container. *)
Definition child (d : Value) (s : Seg) : option Value :=
  match d, s with
  | VDict kvs, Key k => dict_get kvs k
  | VList vs, Idx i => vs !! i
  | _, _ => None
  end.

(** A text that is empty or starts with a character of a given kind. *)
Definition head_in (P : ascii → bool) (r : string) : bool :=
  match r with
  | EmptyString => true
  | String c _ => P c
  end.

(** Two documents are equivalent: the same leaves, sequences element by
    element, mappings key by key whatever the order of their entries. *)
Unset Elimination Schemes.
Inductive doc_equiv : Value → Value → Prop :=
| equiv_scalar s : doc_equiv (VScalar s) (VScalar s)
| equiv_list vs1 vs2 :
    Forall2 doc_equiv vs1 vs2 → doc_equiv (VList vs1) (VList vs2)
| equiv_dict kvs1 kvs2 :
    (∀ k, option_Forall2 doc_equiv (dict_get kvs1 k) (dict_get kvs2 k)) →
    doc_equiv (VDict kvs1) (VDict kvs2).
Set Elimination Schemes.

(** ** Integer literals *)





(** ** Characters *)

(** A decimal digit. *)
Definition is_dec_digit (c : ascii) : bool :=
  match digit_value c with Some d => d <? 10 | None => false end.

(** Every character of a text is of a given kind. *)
Fixpoint all_chars (p : ascii → bool) (s : string) : bool :=
  match s with
  | EmptyString => true
  | String c s' => p c && all_chars p s'
  end.

(** ** The rule families of the numeric settings *)

Definition rings_family (p : string) : bool :=
  Str.startswith p "network.interfaces."
  && Str.contains ".ethtool.rings." p
  && negb (Str.contains ".ethtool.features." p).

Definition channels_family (p : string) : bool :=
  Str.startswith p "network.interfaces."
  && Str.contains ".ethtool.channels." p
  && negb (Str.contains ".ethtool.features." p)
  && negb (Str.contains ".ethtool.rings." p).

Definition coalesce_family (p : string) : bool :=
  Str.startswith p "network.interfaces."
  && Str.contains ".ethtool.coalesce." p
  && negb (Str.contains ".ethtool.features." p)
  && negb (Str.contains ".ethtool.rings." p)
  && negb (Str.contains ".ethtool.channels." p).

(** The paths whose rule looks at the values or at the context: the
    governors, the rings, the channels, the coalesce settings and the state
    of irqbalance. *)
Definition value_rule (p : string) : bool :=
  Str.startswith p "cpu_topology.per_cpu_governors."
  || Str.startswith p "network.interfaces."
     && (Str.contains ".ethtool.rings." p
         || Str.contains ".ethtool.channels." p
         || Str.contains ".ethtool.coalesce." p)
  || String.eqb p "services_sysctl.irqbalance.state".

(** The notes that the rules of the classifier can give. *)
Definition rule_notes : list (option string) :=
  [None; Some "governor != performance"; Some "CPU topology changed";
   Some "ring size reduced"; Some "channels reduced";
   Some "coalesce changed drastically"; Some "libstdc++ ABI level changed";
   Some "irqbalance change with IRQ pinning"].



(** The sections of a snapshot that the classifier has a rule for. *)
Definition known_sections : list string :=
  ["kernel."; "timekeeping."; "cpu_topology."; "memory."; "irq."; "network.";
   "toolchain."; "services_sysctl."].

(** A path of an interface outside the four families of [ethtool]. *)
Definition plain_interface_path (p : string) : bool :=
  Str.startswith p "network.interfaces."
  && negb (Str.contains ".ethtool.features." p)
  && negb (Str.contains ".ethtool.rings." p)
  && negb (Str.contains ".ethtool.channels." p)
  && negb (Str.contains ".ethtool.coalesce." p).


(* ===================================================================== *)
(** * The console report and the exit status                              *)
(* ===================================================================== *)

(** [fmt_value] on a leaf. (The branch for a [dict] or a [list] is never
    taken on an entry of a run: the sides of an entry are leaves of the
    flattened maps or one of the words [present] and [absent].) *)
Definition fmt_value (float_repr : spec_float → string) (v : Scalar)
    (maxlen : Z) : string :=
  let s := py_str float_repr v in
  if maxlen <? Z.of_nat (String.length s)
  then Str.slice_to s (maxlen - 3) +:+ "..."
  else s.





(** ** Documents used in the examples *)

Definition kernel_old : Value :=
  VDict [("kernel", VDict [("a", VScalar (SInt 1));
                           ("cmdline", VScalar (SStr "quiet"))])].

Definition kernel_new : Value :=
  VDict [("kernel", VDict [("a", VScalar (SInt 2));
                           ("cmdline", VScalar (SStr "quiet nohz_full=2-7"))])].

Definition nics_old : Value :=
  VDict [("network", VDict [("interfaces", VDict [
     ("eth0", VDict [("ethtool", VDict [("features", VDict [
                        ("tso", VScalar (SBool true))])])]);
     ("eth1", VDict [("mtu", VScalar (SStr "1500"))])])])].

Definition nics_new : Value :=
  VDict [("network", VDict [("interfaces", VDict [
     ("eth0", VDict [("ethtool", VDict [("features", VDict [
                        ("tso", VScalar (SBool false))])])]);
     ("eth2", VDict [("mtu", VScalar (SStr "9000"))])])])].

(** A document with one interface that has no setting. *)
Definition bare_nic : Value :=
  VDict [("network", VDict [("interfaces", VDict [("eth1", VDict [])])])].

(** A snapshot with one pinned interrupt. *)
Definition pinned : Value :=
  VDict [("irq", VDict [("smp_affinity_list",
                         VDict [("24", VScalar (SStr "2-3"))])])].

(** One document, and the same with the keys of its mappings in another
    order. *)
Definition settings : Value :=
  VDict [("memory", VDict [("swappiness", VScalar (SInt 10));
                           ("ksm", VDict [("run", VScalar (SInt 0))])]);
         ("routes", VList [VScalar (SStr "default");
                           VDict [("dev", VScalar (SStr "eth0"))]])].

Definition settings_reordered : Value :=
  VDict [("routes", VList [VScalar (SStr "default");
                           VDict [("dev", VScalar (SStr "eth0"))]]);
         ("memory", VDict [("ksm", VDict [("run", VScalar (SInt 0))]);
                           ("swappiness", VScalar (SInt 10))])].

(** An interface of which nothing is known. *)
Definition null_nic : Value :=
  VDict [("network", VDict [("interfaces", VDict [("eth0", VNull)])])].

Definition no_nic : Value :=
  VDict [("network", VDict [("interfaces", VDict [])])].

(* ===================================================================== *)
(** * The definitions at work                                             *)
(* ===================================================================== *)

(** The test of the flattener in the repository. *)
Example test_flatten :
  let f := flatten (VDict [("a", VDict [("b", VScalar (SInt 1))]);
                           ("c", VList [VScalar (SInt 2);
                                        VDict [("d", VScalar (SInt 3))]])]) "" in
  f !! "a.b" = Some (SInt 1) ∧ f !! "c[0]" = Some (SInt 2)
  ∧ f !! "c[1].d" = Some (SInt 3) ∧ size f = 3%nat.
Proof. vm_compute. auto. Qed.

Example int_base0_examples :
  int_base0 "512" = Some 512 ∧ int_base0 "0x100" = Some 256
  ∧ int_base0 "-0X1f" = Some (-31) ∧ int_base0 "0b101" = Some 5
  ∧ int_base0 "0o17" = Some 15 ∧ int_base0 "1_000" = Some 1000
  ∧ int_base0 "0x_ff" = Some 255 ∧ int_base0 "00" = Some 0
  ∧ int_base0 "010" = None ∧ int_base0 "0x" = None ∧ int_base0 "" = None
  ∧ int_base0 "1__0" = None ∧ int_base0 "_1" = None ∧ int_base0 "1_" = None
  ∧ int_base0 "12a" = None ∧ int_base0 "+" = None ∧ int_base0 "1.5" = None.
Proof. vm_compute. tauto. Qed.

(* ===================================================================== *)
(** * The diff engine: buckets                                            *)
(* ===================================================================== *)

Section Buckets.

Implicit Types (e : DiffEntry) (es : list DiffEntry).
Implicit Types (diffs : gmap string (list DiffEntry)) (c cat : string).

Lemma bucket_empty c : bucket ∅ c = [].
Proof. unfold bucket. by rewrite lookup_empty. Qed.

Lemma bucket_append cat e diffs c :
  bucket (append_entry cat e diffs) c
  = if decide (c = cat) then bucket diffs c ++ [e] else bucket diffs c.
Proof.
  unfold bucket, append_entry. case_decide as Hc.
  - subst. by rewrite lookup_insert_eq.
  - by rewrite lookup_insert_ne.
Qed.

Lemma group_app es1 es2 diffs :
  group (es1 ++ es2) diffs = group es2 (group es1 diffs).
Proof. unfold group. apply foldl_app. Qed.

Lemma group_cons e es diffs :
  group (e :: es) diffs = group es (append_entry (category_of (path e)) e diffs).
Proof. reflexivity. Qed.

(** A bucket holds, in the order of emission, the entries whose path has
    its category. *)
Lemma bucket_group es diffs c :
  bucket (group es diffs) c
  = bucket diffs c ++ filter (λ e, category_of (path e) = c) es.
Proof.
  revert diffs. induction es as [|e es IH]; intros diffs.
  - by rewrite app_nil_r.
  - rewrite group_cons, IH, bucket_append, filter_cons.
    case_decide as H1; case_decide as H2; try congruence.
    by rewrite <- app_assoc.
Qed.

(** A bucket is created by an append: none is ever empty. *)
Lemma no_empty_bucket_append cat e diffs :
  no_empty_bucket diffs → no_empty_bucket (append_entry cat e diffs).
Proof.
  intros H c l. unfold append_entry.
  destruct (decide (c = cat)) as [->|Hne].
  - rewrite lookup_insert_eq. intros [= <-]. by destruct (default _ _).
  - rewrite lookup_insert_ne by done. apply H.
Qed.

Lemma no_empty_bucket_group es diffs :
  no_empty_bucket diffs → no_empty_bucket (group es diffs).
Proof.
  revert diffs. induction es as [|e es IH]; intros diffs H; [done|].
  rewrite group_cons. by apply IH, no_empty_bucket_append.
Qed.

Lemma no_empty_bucket_filter diffs :
  no_empty_bucket diffs →
  filter (λ kv : string * list DiffEntry, kv.2 ≠ []) diffs = diffs.
Proof.
  intros H. apply map_filter_id. intros c l Hl. simpl. by eapply H.
Qed.

Lemma lookup_bucket diffs c l : diffs !! c = Some l → bucket diffs c = l.
Proof. unfold bucket. by intros ->. Qed.

End Buckets.

(** ** Categories *)

Lemma category_of_interface iface :
  category_of ("network.interfaces." +:+ iface) = "network".
Proof. reflexivity. Qed.

Lemma foldl_removed l diffs :
  foldl (λ diffs iface, append_entry "network" (removed_entry iface) diffs) diffs l
  = group (removed_entry <$> l) diffs.
Proof.
  revert diffs. induction l as [|i l IH]; intros diffs; [done|].
  rewrite fmap_cons, group_cons. simpl. by rewrite IH.
Qed.

Lemma foldl_added l diffs :
  foldl (λ diffs iface, append_entry "network" (added_entry iface) diffs) diffs l
  = group (added_entry <$> l) diffs.
Proof.
  revert diffs. induction l as [|i l IH]; intros diffs; [done|].
  rewrite fmap_cons, group_cons. simpl. by rewrite IH.
Qed.

Lemma leaf_entry_path fr ctx k a b : path (leaf_entry fr ctx k a b) = k.
Proof. unfold leaf_entry. by destruct (severity_of _ _ _ _ _). Qed.

Lemma foldl_diff_step fr f_old f_new ctx l diffs :
  foldl (diff_step fr f_old f_new ctx) diffs l
  = group (omap (changed_entry fr f_old f_new ctx) l) diffs.
Proof.
  revert diffs. induction l as [|k l IH]; intros diffs; [done|].
  cbn [foldl]. rewrite IH. clear IH.
  change (omap ?f (k :: l)) with
    (match f k with Some y => y :: omap f l | None => omap f l end).
  unfold diff_step, changed_entry, side.
  destruct (value_changed _ _); simpl negb; cbv iota; [|done].
  by rewrite group_cons, leaf_entry_path.
Qed.

(** The result of a run: the synthetic entries, then the entries of the
    changed addresses, grouped by category. The filter changes nothing. *)
Lemma diff_dumps_group fr old new only_changed :
  diff_dumps fr old new only_changed
  = (old_ifaces ← iface_names old;
     new_ifaces ← iface_names new;
     Some (group (emitted fr old new old_ifaces new_ifaces) ∅)).
Proof.
  unfold diff_dumps.
  destruct (iface_names old) as [o|]; simpl; [|done].
  destruct (iface_names new) as [n|]; simpl; [|done].
  rewrite foldl_removed, foldl_added, foldl_diff_step.
  unfold emitted, synthetic_entries, leaf_entries.
  rewrite !group_app. f_equal.
  destruct only_changed; [|done].
  apply no_empty_bucket_filter.
  do 3 apply no_empty_bucket_group. intros c l. by rewrite lookup_empty.
Qed.

(* ===================================================================== *)
(** * Facts on strings                                                    *)
(* ===================================================================== *)

Lemma string_app_nil_r s : s +:+ "" = s.
Proof.
  induction s as [|c s IH]; [done|].
  change (String c s +:+ "") with (String c (s +:+ "")). by rewrite IH.
Qed.

Lemma string_app_assoc s1 s2 s3 : (s1 +:+ s2) +:+ s3 = s1 +:+ (s2 +:+ s3).
Proof.
  induction s1 as [|c s1 IH]; [done|].
  change (String c ((s1 +:+ s2) +:+ s3) = String c (s1 +:+ (s2 +:+ s3))).
  by rewrite IH.
Qed.

Lemma prefix_empty s : String.prefix "" s = true.
Proof. by destruct s. Qed.

Lemma startswith_app s p : Str.startswith s p = true ↔ ∃ q, s = p +:+ q.
Proof.
  unfold Str.startswith. revert s. induction p as [|a p IH]; intros s.
  - split; [by exists s|by destruct s].
  - destruct s as [|b s]; simpl; [split; [done|by intros [? [=]]]|].
    destruct (ascii_dec a b) as [->|Hab].
    + rewrite IH. split; intros [q Hq]; exists q.
      * by rewrite Hq.
      * by injection Hq.
    + split; [done|]. intros [q [=]]. done.
Qed.

Lemma prefix_app_string s t : String.prefix s (s +:+ t) = true.
Proof. apply startswith_app. by exists t. Qed.

Lemma prefix_comparable P1 P2 p :
  String.prefix P1 p = true → String.prefix P2 p = true →
  String.prefix P1 P2 = true ∨ String.prefix P2 P1 = true.
Proof.
  revert P1 P2. induction p as [|c p IH]; intros [|a1 P1] [|a2 P2]; simpl;
    try (by auto).
  destruct (ascii_dec a1 c) as [->|]; [|done].
  destruct (ascii_dec a2 c) as [->|]; [|done].
  destruct (ascii_dec c c); [|done]. apply IH.
Qed.

Lemma prefix_trans s1 s2 s3 :
  String.prefix s1 s2 = true → String.prefix s2 s3 = true →
  String.prefix s1 s3 = true.
Proof.
  intros [q1 ->]%startswith_app [q2 ->]%startswith_app.
  apply startswith_app. exists (q1 +:+ q2). by rewrite string_app_assoc.
Qed.

Lemma length_app_string a b :
  String.length (a +:+ b) = (String.length a + String.length b)%nat.
Proof.
  induction a as [|c a IH]; [done|].
  change (String c a +:+ b) with (String c (a +:+ b)). simpl. by rewrite IH.
Qed.

Lemma drop_app_string a b : Str.drop (String.length a) (a +:+ b) = b.
Proof. induction a as [|c a IH]; [by destruct b|]. apply IH. Qed.

Lemma length_take n s : String.length (Str.take n s) = (n `min` String.length s)%nat.
Proof.
  revert s. induction n as [|n IH]; intros [|c s]; simpl; try done.
  by rewrite IH.
Qed.

Lemma take_take_app n s x :
  (n ≤ String.length s)%nat → Str.take n (Str.take n s +:+ x) = Str.take n s.
Proof.
  revert s. induction n as [|n IH]; intros [|c s] Hn; simpl in *; try done; [lia|].
  change (String c (Str.take n s) +:+ x) with (String c (Str.take n s +:+ x)).
  simpl. rewrite IH; [done|lia].
Qed.

Lemma drop_app_le n x t :
  (n ≤ String.length x)%nat → Str.drop n (x +:+ t) = Str.drop n x +:+ t.
Proof.
  revert x. induction n as [|n IH]; intros [|c x] Hn; simpl in *; try done; [lia|].
  apply IH. lia.
Qed.

(* ===================================================================== *)
(** * Facts on the pieces of a run                                        *)
(* ===================================================================== *)

Global Instance spec_float_eq_dec : EqDecision spec_float.
Proof. solve_decision. Defined.
Global Instance Scalar_eq_dec : EqDecision Scalar.
Proof. solve_decision. Defined.
Global Instance DiffEntry_eq_dec : EqDecision DiffEntry.
Proof. solve_decision. Defined.

(** ** [sorted] *)

Lemma sorted_strings_perm l : sorted_strings l ≡ₚ l.
Proof. apply merge_sort_Permutation. Qed.

Lemma sorted_strings_sorted l : StronglySorted String.le (sorted_strings l).
Proof. apply StronglySorted_merge_sort; apply _. Qed.

Lemma elem_of_sorted_strings l x : x ∈ sorted_strings l ↔ x ∈ l.
Proof. by rewrite sorted_strings_perm. Qed.

Lemma NoDup_sorted_strings l : NoDup l → NoDup (sorted_strings l).
Proof. by rewrite sorted_strings_perm. Qed.

Lemma elem_of_sorted_elements (X : gset string) x :
  x ∈ sorted_strings (elements X) ↔ x ∈ X.
Proof. by rewrite elem_of_sorted_strings, elem_of_elements. Qed.

Lemma NoDup_sorted_elements (X : gset string) :
  NoDup (sorted_strings (elements X)).
Proof. apply NoDup_sorted_strings, NoDup_elements. Qed.

Global Instance entry_le_trans : Transitive entry_le.
Proof.
  intros e1 e2 e3 [H1|[H1 H1']] [H2|[H2 H2']]; unfold entry_le.
  - left. lia.
  - left. lia.
  - left. lia.
  - right. split; [lia|]. by etrans.
Qed.

Global Instance entry_le_total : Total entry_le.
Proof.
  intros e1 e2. unfold entry_le.
  destruct (lt_eq_lt_dec (SEV_ORDER (severity e1)) (SEV_ORDER (severity e2)))
    as [[?|Heq]|?]; [by left; left| |by right; left].
  destruct (total String.le (path e1) (path e2)); [left|right]; right; auto.
Qed.

(** ** Lists *)


Lemma StronglySorted_omap_key {A B} (R : relation A) (f : A → option B)
    (g : B → A) (l : list A) :
  (∀ x y, f x = Some y → g y = x) →
  StronglySorted R l → StronglySorted (λ a b, R (g a) (g b)) (omap f l).
Proof.
  intros Hg. induction 1 as [|x l Hl IH Hx]; [constructor|].
  change (omap f (x :: l)) with
    (match f x with Some y => y :: omap f l | None => omap f l end).
  destruct (f x) as [y|] eqn:Hfx; [|done].
  constructor; [done|]. rewrite Forall_forall in Hx. rewrite Forall_forall.
  intros z (x' & Hx' & Hz)%list_elem_of_omap.
  rewrite (Hg _ _ Hfx), (Hg _ _ Hz). auto.
Qed.

Lemma NoDup_omap_key {A B} (f : A → option B) (g : B → A) (l : list A) :
  (∀ x y, f x = Some y → g y = x) → NoDup l → NoDup (omap f l).
Proof.
  intros Hg. induction 1 as [|x l Hx Hl IH]; [constructor|].
  change (omap f (x :: l)) with
    (match f x with Some y => y :: omap f l | None => omap f l end).
  destruct (f x) as [y|] eqn:Hfx; [|done].
  constructor; [|done].
  intros (x' & Hx' & Hy)%list_elem_of_omap.
  apply Hx. by rewrite <- (Hg _ _ Hfx), (Hg _ _ Hy).
Qed.

Lemma filter_eq_not_elem_of {A} `{EqDecision A} (x : A) (l : list A) :
  x ∉ l → filter (λ y, y = x) l = [].
Proof.
  induction l as [|y l IH]; [done|].
  intros [Hne Hl]%not_elem_of_cons. rewrite filter_cons.
  rewrite decide_False by done. auto.
Qed.

(** An element of a list without repetition occurs in it exactly once. *)
Lemma count_one_NoDup {A} `{EqDecision A} (x : A) (l : list A) :
  NoDup l → x ∈ l → length (filter (λ y, y = x) l) = 1%nat.
Proof.
  induction 1 as [|y l Hy Hl IH]; [by intros ?%elem_of_nil|].
  rewrite filter_cons. intros [->|Hx]%elem_of_cons.
  - rewrite decide_True by done. simpl.
    by rewrite filter_eq_not_elem_of.
  - rewrite decide_False by (intros ->; done). auto.
Qed.

(** ** What the classifier can return *)

Lemma severity_of_range fr p a b ctx :
  (severity_of fr p a b ctx).1 ∈ ["CRITICAL"; "WARNING"; "INFO"]
  ∧ (severity_of fr p a b ctx).2 ∈ rule_notes.
Proof.
  unfold severity_of, rule_notes.
  repeat match goal with
         | |- context [if ?c then _ else _] => destruct c
         end; simpl; split; set_solver.
Qed.

Lemma leaf_entry_severity fr ctx k a b :
  severity (leaf_entry fr ctx k a b) = (severity_of fr k a b ctx).1.
Proof. unfold leaf_entry. by destruct (severity_of _ _ _ _ _). Qed.

Lemma leaf_entry_note fr ctx k a b :
  note (leaf_entry fr ctx k a b) = (severity_of fr k a b ctx).2.
Proof. unfold leaf_entry. by destruct (severity_of _ _ _ _ _). Qed.

Lemma leaf_entry_old fr ctx k a b : old (leaf_entry fr ctx k a b) = a.
Proof. unfold leaf_entry. by destruct (severity_of _ _ _ _ _). Qed.

Lemma leaf_entry_new fr ctx k a b : new (leaf_entry fr ctx k a b) = b.
Proof. unfold leaf_entry. by destruct (severity_of _ _ _ _ _). Qed.

(** The note tells a synthetic entry from the entry of an address. *)
Lemma leaf_entry_not_removed fr ctx k a b i :
  leaf_entry fr ctx k a b ≠ removed_entry i.
Proof.
  intros H. apply (f_equal note) in H. rewrite leaf_entry_note in H.
  destruct (severity_of_range fr k a b ctx) as [_ Hn]. rewrite H in Hn.
  unfold rule_notes in Hn. simpl in Hn.
  repeat (apply elem_of_cons in Hn as [Hn|Hn]; [discriminate|]).
  by apply elem_of_nil in Hn.
Qed.

Lemma leaf_entry_not_added fr ctx k a b i :
  leaf_entry fr ctx k a b ≠ added_entry i.
Proof.
  intros H. apply (f_equal note) in H. rewrite leaf_entry_note in H.
  destruct (severity_of_range fr k a b ctx) as [_ Hn]. rewrite H in Hn.
  unfold rule_notes in Hn. simpl in Hn.
  repeat (apply elem_of_cons in Hn as [Hn|Hn]; [discriminate|]).
  by apply elem_of_nil in Hn.
Qed.

Global Instance removed_entry_inj : Inj (=) (=) removed_entry.
Proof. intros i j [= H]. by simplify_eq. Qed.

Global Instance added_entry_inj : Inj (=) (=) added_entry.
Proof. intros i j [= H]. by simplify_eq. Qed.

Lemma removed_not_added i j : removed_entry i ≠ added_entry j.
Proof. by intros [= _]. Qed.

(** ** The names of the interfaces *)

Lemma iface_names_shape d :
  network_shape d = true → iface_names d = Some (list_to_set (interfaces_of d)).
Proof.
  unfold network_shape, iface_names, interfaces_of.
  destruct d as [s|vs|top]; simpl; try done.
  destruct (dict_get top "network") as [[[]|vs|net]|]; simpl; try done.
  destruct net as [|kv net']; simpl; [done|].
  destruct (match kv with (k', v) => _ end) as [[[]|vs|ifs]|] eqn:Hi;
    rewrite ?Hi; simpl; try done;
    destruct kv as [k v]; simpl in *; rewrite ?Hi; simpl; try done.
  by destruct ifs.
Qed.

(** ** The entries of a run *)

Section Emitted.

Variable fr : spec_float → string.
Variables old new : Value.
Variables O N : gset string.

Let f_old := flatten old "".
Let f_new := flatten new "".
Let ctx := diff_context old new.

Lemma changed_entry_path k e :
  changed_entry fr f_old f_new ctx k = Some e → path e = k.
Proof.
  unfold changed_entry. destruct (value_changed _ _); [|done].
  intros [= <-]. apply leaf_entry_path.
Qed.

Lemma changed_entry_Some k e :
  changed_entry fr f_old f_new ctx k = Some e ↔
  value_changed (side f_old k) (side f_new k) = true
  ∧ e = leaf_entry fr ctx k (side f_old k) (side f_new k).
Proof.
  unfold changed_entry. destruct (value_changed _ _).
  - split; [by intros [= <-]|by intros [_ ->]].
  - split; [done|by intros [? _]].
Qed.

Lemma elem_of_leaf_entries e :
  e ∈ leaf_entries fr old new ↔
  ∃ k, k ∈ dom f_old ∪ dom f_new
       ∧ value_changed (side f_old k) (side f_new k) = true
       ∧ e = leaf_entry fr ctx k (side f_old k) (side f_new k).
Proof.
  unfold leaf_entries. rewrite list_elem_of_omap. split.
  - intros (k & Hk%elem_of_sorted_elements & [??]%changed_entry_Some). eauto.
  - intros (k & Hk & ? & ?). exists k. split.
    + by apply elem_of_sorted_elements.
    + by apply changed_entry_Some.
Qed.

Lemma elem_of_synthetic_entries e :
  e ∈ synthetic_entries O N ↔
  (∃ i, i ∈ O ∧ (i ∉ N) ∧ e = removed_entry i)
  ∨ (∃ i, i ∈ N ∧ (i ∉ O) ∧ e = added_entry i).
Proof.
  unfold synthetic_entries. rewrite elem_of_app. split.
  - intros [(i & -> & Hi)%list_elem_of_fmap|(i & -> & Hi)%list_elem_of_fmap];
      apply elem_of_sorted_elements, elem_of_difference in Hi as [??];
      [left|right]; eauto.
  - intros [(i & ? & ? & ->)|(i & ? & ? & ->)]; [left|right];
      apply list_elem_of_fmap_2, elem_of_sorted_elements, elem_of_difference;
      done.
Qed.

Lemma elem_of_emitted e :
  e ∈ emitted fr old new O N ↔
  (∃ i, i ∈ O ∧ (i ∉ N) ∧ e = removed_entry i)
  ∨ (∃ i, i ∈ N ∧ (i ∉ O) ∧ e = added_entry i)
  ∨ (∃ k, k ∈ dom f_old ∪ dom f_new
          ∧ value_changed (side f_old k) (side f_new k) = true
          ∧ e = leaf_entry fr ctx k (side f_old k) (side f_new k)).
Proof.
  unfold emitted.
  rewrite elem_of_app, elem_of_synthetic_entries, elem_of_leaf_entries.
  tauto.
Qed.

Lemma NoDup_leaf_entries : NoDup (leaf_entries fr old new).
Proof.
  unfold leaf_entries. eapply (NoDup_omap_key _ path).
  - apply changed_entry_path.
  - apply NoDup_sorted_elements.
Qed.

Lemma NoDup_synthetic_entries : NoDup (synthetic_entries O N).
Proof.
  unfold synthetic_entries. apply NoDup_app. split_and!.
  - apply (NoDup_fmap_2 _), NoDup_sorted_elements.
  - intros e (i & -> & _)%list_elem_of_fmap (j & H & _)%list_elem_of_fmap.
    by apply removed_not_added in H.
  - apply (NoDup_fmap_2 _), NoDup_sorted_elements.
Qed.

(** No entry is emitted twice. *)
Lemma NoDup_emitted : NoDup (emitted fr old new O N).
Proof.
  unfold emitted. apply NoDup_app. split_and!.
  - apply NoDup_synthetic_entries.
  - intros e Hs (k & _ & _ & ->)%elem_of_leaf_entries.
    apply elem_of_synthetic_entries in Hs as [(i & _ & _ & H)|(i & _ & _ & H)].
    + by apply leaf_entry_not_removed in H.
    + by apply leaf_entry_not_added in H.
  - apply NoDup_leaf_entries.
Qed.

(** The entries of the addresses come in ascending order of address. *)
Lemma leaf_entries_sorted :
  StronglySorted (λ e1 e2, String.le (path e1) (path e2))
                 (leaf_entries fr old new).
Proof.
  unfold leaf_entries. apply StronglySorted_omap_key.
  - apply changed_entry_path.
  - apply sorted_strings_sorted.
Qed.

End Emitted.

(** The buckets of a run on two snapshots of the expected shape. *)
Lemma diff_dumps_shaped fr old new only_changed :
  network_shape old = true → network_shape new = true →
  diff_dumps fr old new only_changed
  = Some (group (emitted fr old new (list_to_set (interfaces_of old))
                                    (list_to_set (interfaces_of new))) ∅).
Proof.
  intros Ho Hn. rewrite diff_dumps_group.
  by rewrite (iface_names_shape _ Ho), (iface_names_shape _ Hn).
Qed.

Lemma bucket_run es c :
  bucket (group es ∅) c = filter (λ e, category_of (path e) = c) es.
Proof. by rewrite bucket_group, bucket_empty. Qed.

Lemma elem_of_bucket_run es c e :
  e ∈ bucket (group es ∅) c ↔ category_of (path e) = c ∧ e ∈ es.
Proof. by rewrite bucket_run, list_elem_of_filter. Qed.

Lemma NoDup_bucket_run es c : NoDup es → NoDup (bucket (group es ∅) c).
Proof. rewrite bucket_run. apply NoDup_filter. Qed.

(* ===================================================================== *)
(** * Properties of the diff engine                                       *)
(* ===================================================================== *)

(** C10. With the filter of empty categories the run returns exactly what
    it returns without it: a bucket is created by the append of an entry,
    so no bucket of a result is empty and the filter removes nothing. *)
Theorem only_changed_is_identity fr old new :
  diff_dumps fr old new true = diff_dumps fr old new false
  ∧ from_option no_empty_bucket True (diff_dumps fr old new false).
Proof.
  split; [by rewrite !diff_dumps_group|].
  rewrite diff_dumps_group.
  destruct (iface_names old) as [o|]; simpl; [|done].
  destruct (iface_names new) as [n|]; simpl; [|done].
  apply no_empty_bucket_group. intros c l. by rewrite lookup_empty.
Qed.

(** C9, as the specification states it, fails: the address [a] is in the
    flattened map of the old document only, and the run produces no entry
    at all. *)
Lemma changed_leaf_without_entry :
  let old := VDict [("a", VNull)] in
  let new := VDict [] in
  is_Some (flatten old "" !! "a") ∧ flatten new "" !! "a" = None
  ∧ diff_dumps repr_nan old new false = Some ∅.
Proof. vm_compute. split; [by eexists|done]. Qed.

(** C9, amended. Without filtering, every entry of a run sits in exactly
    one bucket, the one named by the part of its path before the first
    dot (the whole path when it has none), and no entry occurs twice.
    Every address of the union of the two flattened maps whose two sides
    differ, a side missing from its map being read as null, has its entry,
    and so has every interface added or removed; and the result holds
    nothing else. *)
Theorem diff_partition fr old new :
  network_shape old = true → network_shape new = true →
  ∃ r, diff_dumps fr old new false = Some r
    ∧ (∀ c e, e ∈ bucket r c → c = category_of (path e))
    ∧ (∀ c, NoDup (bucket r c))
    ∧ (∀ k, k ∈ dom (flatten old "") ∪ dom (flatten new "") →
            value_changed (side (flatten old "") k) (side (flatten new "") k) = true →
            length (filter
              (λ e, e = leaf_entry fr (diff_context old new) k
                          (side (flatten old "") k) (side (flatten new "") k))
              (bucket r (category_of k))) = 1%nat)
    ∧ (∀ i, i ∈ interfaces_of old → (i ∉ interfaces_of new) →
            length (filter (λ e, e = removed_entry i) (bucket r "network")) = 1%nat)
    ∧ (∀ i, i ∈ interfaces_of new → (i ∉ interfaces_of old) →
            length (filter (λ e, e = added_entry i) (bucket r "network")) = 1%nat)
    ∧ (∀ c e, e ∈ bucket r c →
         (∃ i, i ∈ interfaces_of old ∧ (i ∉ interfaces_of new)
               ∧ e = removed_entry i)
         ∨ (∃ i, i ∈ interfaces_of new ∧ (i ∉ interfaces_of old)
                 ∧ e = added_entry i)
         ∨ (∃ k, k ∈ dom (flatten old "") ∪ dom (flatten new "")
                 ∧ value_changed (side (flatten old "") k)
                                 (side (flatten new "") k) = true
                 ∧ e = leaf_entry fr (diff_context old new) k
                         (side (flatten old "") k) (side (flatten new "") k))).
Proof.
  intros Ho Hn. eexists. split; [by apply diff_dumps_shaped|].
  set (O := list_to_set (interfaces_of old) : gset string).
  set (N := list_to_set (interfaces_of new) : gset string).
  assert (Hin : ∀ e c, e ∈ emitted fr old new O N → category_of (path e) = c →
                  length (filter (λ x, x = e)
                            (bucket (group (emitted fr old new O N) ∅) c)) = 1%nat).
  { intros e c He Hc. apply count_one_NoDup.
    - apply NoDup_bucket_run, NoDup_emitted.
    - by apply elem_of_bucket_run. }
  split_and!.
  - by intros c e [? _]%elem_of_bucket_run.
  - intros c. apply NoDup_bucket_run, NoDup_emitted.
  - intros k Hk Hc. apply Hin; [|by rewrite leaf_entry_path].
    apply elem_of_emitted. right; right. eauto.
  - intros i Hi Hi'. apply Hin; [|done].
    apply elem_of_emitted. left. exists i.
    unfold O, N. by rewrite !elem_of_list_to_set.
  - intros i Hi Hi'. apply Hin; [|done].
    apply elem_of_emitted. right; left. exists i.
    unfold O, N. by rewrite !elem_of_list_to_set.
  - intros c e [_ He]%elem_of_bucket_run.
    apply elem_of_emitted in He. unfold O, N in He.
    setoid_rewrite elem_of_list_to_set in He. exact He.
Qed.

Lemma diff_partition_witness :
  network_shape nics_old = true ∧ network_shape nics_new = true
  ∧ ∃ r, diff_dumps repr_nan nics_old nics_new false = Some r
       ∧ ∀ c e, e ∈ bucket r c → c = category_of (path e).
Proof.
  split; [reflexivity|]. split; [reflexivity|].
  destruct (diff_partition repr_nan nics_old nics_new eq_refl eq_refl)
    as (r & Hr & H & _).
  exists r. split; [exact Hr|exact H].
Defined.

(* ===================================================================== *)
(** * More on the diff engine                                             *)
(* ===================================================================== *)

Lemma diff_dumps_Some fr old new only_changed r :
  diff_dumps fr old new only_changed = Some r →
  ∃ O N, iface_names old = Some O ∧ iface_names new = Some N
         ∧ r = group (emitted fr old new O N) ∅.
Proof.
  rewrite diff_dumps_group.
  destruct (iface_names old) as [o|]; simpl; [|done].
  destruct (iface_names new) as [n|]; simpl; [|done].
  intros [= <-]. eauto.
Qed.

Lemma StronglySorted_strict {A} (R : relation A) `{!AntiSymm (=) R} l :
  StronglySorted R l → NoDup l → StronglySorted (strict R) l.
Proof.
  induction 1 as [|x l Hl IH Hx]; [constructor|].
  intros [Hxl Hnd]%NoDup_cons. constructor; [auto|].
  rewrite Forall_forall in Hx. rewrite Forall_forall. intros y Hy.
  split; [auto|]. intros Hyx.
  assert (x = y) by (apply (anti_symm R); auto). by subst.
Qed.

Lemma sorted_elements_strict (X : gset string) :
  StronglySorted (strict String.le) (sorted_strings (elements X)).
Proof.
  apply StronglySorted_strict; [apply _|apply sorted_strings_sorted|].
  apply NoDup_sorted_elements.
Qed.







(** ** What an entry of a run looks like *)

(** A rule that gives a note gives the severity [CRITICAL]. *)
Lemma severity_of_note fr p a b ctx :
  is_Some (severity_of fr p a b ctx).2 → (severity_of fr p a b ctx).1 = "CRITICAL".
Proof.
  unfold severity_of.
  repeat match goal with
         | |- context [if ?c then _ else _] => destruct c
         end; simpl; try done; by intros [? [=]].
Qed.

Lemma SEV_ORDER_range sev :
  sev ∈ ["CRITICAL"; "WARNING"; "INFO"] → (SEV_ORDER sev ≤ 2)%nat.
Proof.
  intros H. repeat (apply elem_of_cons in H as [->|H]; [vm_compute; lia|]).
  by apply elem_of_nil in H.
Qed.

(** X2. Every entry of a run has one of the three severities, so that the
    rank 99 that the reports give to an unknown severity is never used; an
    entry with a note is critical, unless it tells of an interface removed
    or added; and the two sides of the entry of an address differ. *)
Theorem entry_invariants fr old_doc new_doc only_changed r c e :
  diff_dumps fr old_doc new_doc only_changed = Some r →
  e ∈ bucket r c →
  (SEV_ORDER (severity e) ≤ 2)%nat
  ∧ (is_Some (note e) → severity e = "CRITICAL" ∨ is_synthetic e)
  ∧ (is_synthetic e ∨ value_changed (old e) (new e) = true).
Proof.
  intros (O & N & _ & _ & ->)%diff_dumps_Some [_ He]%elem_of_bucket_run.
  apply elem_of_emitted in He
    as [(i & _ & _ & ->)|[(i & _ & _ & ->)|(k & _ & Hc & ->)]].
  - split_and!; [vm_compute; lia| |]; intros; left + right; exists i; auto.
  - split_and!; [vm_compute; lia| |]; intros; left + right; exists i; auto.
  - rewrite leaf_entry_severity, leaf_entry_note, leaf_entry_old, leaf_entry_new.
    split_and!.
    + apply SEV_ORDER_range, severity_of_range.
    + intros Hn. left. by apply severity_of_note.
    + by right.
Qed.

Lemma entry_invariants_witness :
  ∃ r e, diff_dumps repr_nan kernel_old kernel_new false = Some r
       ∧ e ∈ bucket r "kernel" ∧ (SEV_ORDER (severity e) ≤ 2)%nat.
Proof.
  eexists. eexists. split; [reflexivity|].
  assert (H : leaf_entry repr_nan (diff_context kernel_old kernel_new)
                "kernel.cmdline"
                (side (flatten kernel_old "") "kernel.cmdline")
                (side (flatten kernel_new "") "kernel.cmdline")
              ∈ bucket (group (emitted repr_nan kernel_old kernel_new ∅ ∅) ∅)
                       "kernel").
  { apply elem_of_bucket_run. split; [reflexivity|].
    apply elem_of_emitted. right; right. exists "kernel.cmdline".
    split_and!; [|reflexivity|reflexivity].
    apply elem_of_union_l, elem_of_dom. by eexists. }
  split; [exact H|].
  exact (proj1 (entry_invariants repr_nan kernel_old kernel_new false _ "kernel" _
                  eq_refl H)).
Defined.

(** ** When a run raises *)

Lemma iface_names_runs d : is_Some (iface_names d) ↔ runs d = true.
Proof.
  assert (Hn : ∀ X : option (gset string), X = None → is_Some X ↔ false = true).
  { intros X ->. by split; [intros [? [=]]|]. }
  assert (Hs : ∀ (X : option (gset string)) x, X = Some x → is_Some X ↔ true = true).
  { intros X x ->. by split; [|eexists]. }
  unfold runs, iface_names, usable.
  destruct d as [s|vs|top]; simpl; [by apply Hn..|].
  destruct (dict_get top "network") as [net|]; simpl; [|by eapply Hs].
  unfold or_empty at 2.
  destruct net as [s|vs|net]; simpl.
  - destruct (scalar_truthy s); simpl; [by apply Hn|by eapply Hs].
  - destruct vs; simpl; [by eapply Hs|by apply Hn].
  - destruct net as [|kv net]; [by eapply Hs|].
    cbn [negb orb andb py_get mbind option_bind].
    destruct (dict_get (kv :: net) "interfaces") as [ifs|]; simpl;
      [|by eapply Hs].
    unfold or_empty.
    destruct ifs as [s|vs|ifs]; simpl.
    + destruct (scalar_truthy s); simpl; [by apply Hn|by eapply Hs].
    + destruct vs; simpl; [by eapply Hs|by apply Hn].
    + destruct ifs; simpl; by eapply Hs.
Qed.


(* ===================================================================== *)
(** * The comparison of two leaves                                        *)
(* ===================================================================== *)

Lemma num_eqb_sym x y : num_eqb x y = num_eqb y x.
Proof.
  destruct x as [m1 e1|s1|], y as [m2 e2|s2|]; simpl; try done.
  - by rewrite (Z.min_comm e2 e1), Z.eqb_sym.
  - by destruct s1, s2.
Qed.

Lemma num_eqb_refl x : num_eqb x x = true ↔ x ≠ NNan.
Proof.
  destruct x as [m e|s|]; simpl.
  - by rewrite Z.eqb_refl.
  - by destruct s.
  - done.
Qed.

Lemma float_num_nan f : float_num f = NNan ↔ f = S754_nan.
Proof. by destruct f. Qed.

Lemma py_eq_sym a b : py_eq a b = py_eq b a.
Proof.
  destruct a, b; try done; unfold py_eq; cbn [as_num];
    first [apply num_eqb_sym|apply String.eqb_sym].
Qed.

Lemma py_eq_refl a : py_eq a a = true ↔ a ≠ SFloat S754_nan.
Proof.
  destruct a as [|b|z|f|s]; simpl.
  - done.
  - by destruct b.
  - by rewrite Z.eqb_refl.
  - rewrite num_eqb_refl, float_num_nan. split; congruence.
  - by rewrite String.eqb_refl.
Qed.

(** X4. [value_changed] is Python's [!=] on two leaves. It is symmetric; a
    leaf differs from itself only when it is a NaN; a text is unchanged
    only against the same text, and null only against null; two leaves of
    different types are unchanged only when both are numbers (a [bool]
    counts as the number 0 or 1), so that [true] against [1] is no change. *)
Theorem value_changed_spec a b :
  value_changed a b = value_changed b a
  ∧ (value_changed a a = false ↔ a ≠ SFloat S754_nan)
  ∧ (∀ s, value_changed (SStr s) b = false ↔ b = SStr s)
  ∧ (value_changed SNull b = false ↔ b = SNull)
  ∧ (type_of a ≠ type_of b → value_changed a b = false →
     is_number a = true ∧ is_number b = true)
  ∧ (∀ t : bool, value_changed (SBool t) (SInt (if t then 1 else 0)) = false).
Proof.
  unfold value_changed. split_and!.
  - by rewrite py_eq_sym.
  - rewrite negb_false_iff. apply py_eq_refl.
  - intros s. rewrite negb_false_iff. destruct b; simpl; try done.
    rewrite String.eqb_eq. split; congruence.
  - rewrite negb_false_iff. by destruct b.
  - rewrite negb_false_iff. by destruct a, b.
  - by intros [].
Qed.

(** ** Runs on documents with the same leaves *)

Lemma value_changed_sym a b : value_changed a b = value_changed b a.
Proof. unfold value_changed. by rewrite py_eq_sym. Qed.

Lemma side_nan_free f k : nan_free f → value_changed (side f k) (side f k) = false.
Proof.
  intros Hf. unfold value_changed. apply negb_false_iff, py_eq_refl.
  unfold side. destruct (f !! k) as [s|] eqn:Hk; simpl; [|done].
  intros ->. by apply (Hf k).
Qed.

Lemma list_nil_not_elem_of {A} (l : list A) : (∀ x, x ∉ l) → l = [].
Proof. destruct l as [|x l]; [done|]. intros H. destruct (H x). by left. Qed.

Lemma leaf_entries_same fr old new :
  flatten old "" = flatten new "" → nan_free (flatten old "") →
  leaf_entries fr old new = [].
Proof.
  intros Heq Hf. apply list_nil_not_elem_of.
  intros e (k & _ & Hc & _)%elem_of_leaf_entries.
  rewrite <- Heq, side_nan_free in Hc by done. done.
Qed.

Lemma synthetic_entries_same O : synthetic_entries O O = [].
Proof.
  unfold synthetic_entries.
  by rewrite difference_diag_L, elements_empty.
Qed.

(** X5. When the two documents flatten to the same map, and no leaf is a
    NaN, the run reports no address: every entry it produces tells of an
    interface removed or added. *)
Theorem same_leaves_only_interfaces fr old new only_changed r c e :
  diff_dumps fr old new only_changed = Some r →
  flatten old "" = flatten new "" → nan_free (flatten old "") →
  e ∈ bucket r c → is_synthetic e.
Proof.
  intros (O & N & _ & _ & ->)%diff_dumps_Some Heq Hf [_ He]%elem_of_bucket_run.
  unfold emitted in He. rewrite leaf_entries_same, app_nil_r in He by done.
  apply elem_of_synthetic_entries in He
    as [(i & _ & _ & ->)|(i & _ & _ & ->)]; exists i; auto.
Qed.

Lemma same_leaves_only_interfaces_witness :
  flatten bare_nic "" = flatten (VDict []) ""
  ∧ is_synthetic (removed_entry "eth1").
Proof.
  split; [reflexivity|].
  apply (same_leaves_only_interfaces repr_nan bare_nic (VDict []) false
           _ "network" _ eq_refl).
  - reflexivity.
  - intros k. change (flatten bare_nic "") with (∅ : gmap string Scalar).
    by rewrite lookup_empty.
  - vm_compute. left.
Defined.

(** X6. A document compared with itself gives the empty result, unless one
    of its leaves is a NaN: a NaN differs from itself, and is reported. *)
Theorem diff_self fr d only_changed :
  runs d = true →
  diff_dumps fr d d only_changed = Some ∅ ↔ nan_free (flatten d "").
Proof.
  intros [O HO]%iface_names_runs. rewrite diff_dumps_group, HO. simpl.
  unfold emitted. rewrite synthetic_entries_same. simpl. split.
  - intros [= Hr] k Hk.
    assert (He : leaf_entry fr (diff_context d d) k (side (flatten d "") k)
                   (side (flatten d "") k)
                 ∈ bucket (group (leaf_entries fr d d) ∅) (category_of k)).
    { apply elem_of_bucket_run. split; [by rewrite leaf_entry_path|].
      apply elem_of_leaf_entries. exists k. split_and!; [|by unfold side; rewrite Hk|done].
      apply elem_of_union_l, elem_of_dom. by eexists. }
    rewrite Hr, bucket_empty in He. by apply elem_of_nil in He.
  - intros Hf. by rewrite leaf_entries_same.
Qed.

Lemma diff_self_witness :
  runs kernel_old = true
  ∧ (diff_dumps repr_nan kernel_old kernel_old false = Some ∅
     ↔ nan_free (flatten kernel_old "")).
Proof. split; [reflexivity|]. by apply (diff_self repr_nan kernel_old false). Defined.

(** ** The two documents exchanged *)

Lemma fmap_filter_category {A} (f : DiffEntry → A) (g : A → string) c
    (l : list DiffEntry) :
  (∀ e, g (f e) = path e) →
  f <$> filter (λ e, category_of (path e) = c) l
  = filter (λ t, category_of (g t) = c) (f <$> l).
Proof.
  intros Hg. induction l as [|e l IH]; [done|].
  rewrite fmap_cons, !filter_cons, Hg.
  case_decide; [|done]. by rewrite fmap_cons, IH.
Qed.

Lemma changed_entry_swap fr old_doc new_doc k :
  sides_swapped <$> changed_entry fr (flatten new_doc "") (flatten old_doc "")
                      (diff_context new_doc old_doc) k
  = sides <$> changed_entry fr (flatten old_doc "") (flatten new_doc "")
                (diff_context old_doc new_doc) k.
Proof.
  unfold changed_entry.
  rewrite (value_changed_sym (side (flatten new_doc "") k)).
  destruct (value_changed _ _); [|done]. simpl. f_equal.
  unfold sides, sides_swapped.
  by rewrite !leaf_entry_path, !leaf_entry_old, !leaf_entry_new.
Qed.

Lemma leaf_entries_swap fr old_doc new_doc :
  sides_swapped <$> leaf_entries fr new_doc old_doc
  = sides <$> leaf_entries fr old_doc new_doc.
Proof.
  unfold leaf_entries.
  rewrite (comm_L (∪) (dom (flatten new_doc "")) (dom (flatten old_doc ""))).
  induction (sorted_strings _) as [|k l IH]; [done|].
  change (omap ?f (k :: l)) with
    (match f k with Some y => y :: omap f l | None => omap f l end).
  pose proof (changed_entry_swap fr old_doc new_doc k) as Hk.
  destruct (changed_entry fr (flatten new_doc "") _ _ k),
           (changed_entry fr (flatten old_doc "") _ _ k);
    simplify_eq/=; [|done].
  rewrite IH. by f_equal.
Qed.

(** X7. Exchanging the two documents gives, in every bucket, entries for
    the same addresses with their two sides exchanged: an interface removed
    becomes an interface added, and the entry of a changed address carries
    the same two values the other way round. (The severities may differ:
    the rules on ring sizes and channels look at the direction.) *)
Theorem diff_swap fr old_doc new_doc only_changed r :
  diff_dumps fr old_doc new_doc only_changed = Some r →
  ∃ r', diff_dumps fr new_doc old_doc only_changed = Some r'
      ∧ ∀ c, sides_swapped <$> bucket r' c ≡ₚ sides <$> bucket r c.
Proof.
  intros (O & N & HO & HN & ->)%diff_dumps_Some.
  rewrite diff_dumps_group, HN, HO. simpl. eexists. split; [done|].
  intros c. rewrite !bucket_run.
  rewrite (fmap_filter_category sides_swapped (λ t, t.1.1)) by done.
  rewrite (fmap_filter_category sides (λ t, t.1.1)) by done.
  apply filter_Permutation.
  unfold emitted, synthetic_entries.
  rewrite !fmap_app, leaf_entries_swap, <- !list_fmap_compose.
  apply Permutation_app_tail, Permutation_app_comm.
Qed.

Lemma diff_swap_witness :
  ∃ r r', diff_dumps repr_nan nics_old nics_new false = Some r
        ∧ diff_dumps repr_nan nics_new nics_old false = Some r'
        ∧ sides_swapped <$> bucket r' "network" ≡ₚ sides <$> bucket r "network".
Proof.
  eexists.
  destruct (diff_swap repr_nan nics_old nics_new false _ eq_refl) as (r' & Hr' & H).
  exists r'. split; [reflexivity|]. split; [exact Hr'|]. apply H.
Defined.

(** ** A missing address and a null *)

(** X8. The engine reads an address that one flattened map lacks as null.
    So an address that is null in one document and missing from the other
    is no change: no entry of the run has its path, unless it tells of an
    interface removed or added. The same holds for an address that is null
    on both sides. *)
Theorem null_is_missing fr old_doc new_doc only_changed r k c e :
  diff_dumps fr old_doc new_doc only_changed = Some r →
  flatten old_doc "" !! k ∈ [None; Some SNull] →
  flatten new_doc "" !! k ∈ [None; Some SNull] →
  e ∈ bucket r c → path e = k → is_synthetic e.
Proof.
  intros (O & N & _ & _ & ->)%diff_dumps_Some Ho Hn [_ He]%elem_of_bucket_run Hk.
  apply elem_of_emitted in He
    as [(i & _ & _ & ->)|[(i & _ & _ & ->)|(k' & _ & Hc & ->)]];
    [by exists i; auto..|].
  rewrite leaf_entry_path in Hk. subst k'. exfalso.
  assert (Hs : ∀ f : gmap string Scalar,
            f !! k ∈ [None; Some SNull] → side f k = SNull).
  { intros f Hf. unfold side.
    repeat (apply elem_of_cons in Hf as [->|Hf]; [done|]).
    by apply elem_of_nil in Hf. }
  by rewrite !Hs in Hc.
Qed.

Lemma null_is_missing_witness :
  flatten null_nic "" !! "network.interfaces.eth0" = Some SNull
  ∧ flatten no_nic "" !! "network.interfaces.eth0" = None
  ∧ is_synthetic (removed_entry "eth0").
Proof.
  split; [reflexivity|]. split; [reflexivity|].
  apply (null_is_missing repr_nan null_nic no_nic false _
           "network.interfaces.eth0" "network" _ eq_refl).
  - rewrite !elem_of_cons. right; left. reflexivity.
  - rewrite !elem_of_cons. left. reflexivity.
  - vm_compute. left.
  - reflexivity.
Defined.

(* ===================================================================== *)
(** * The order of the reports                                            *)
(* ===================================================================== *)

Lemma insert_entry_perm e l : insert_entry e l ≡ₚ e :: l.
Proof.
  induction l as [|e' l IH]; simpl; [done|].
  case_decide; [done|]. by rewrite IH, Permutation_swap.
Qed.

Lemma sort_entries_perm l : sort_entries l ≡ₚ l.
Proof.
  induction l as [|e l IH]; simpl; [done|].
  by rewrite insert_entry_perm, IH.
Qed.

Lemma insert_entry_sorted e l :
  StronglySorted entry_le l → StronglySorted entry_le (insert_entry e l).
Proof.
  induction 1 as [|e' l Hl IH He']; simpl; [repeat constructor|].
  case_decide as Hle.
  - constructor; [by constructor|]. constructor; [done|].
    eapply Forall_impl; [exact He'|]. intros y Hy. by etrans.
  - constructor; [done|]. rewrite insert_entry_perm. constructor; [|done].
    by destruct (total entry_le e e').
Qed.

Lemma sort_entries_sorted l : StronglySorted entry_le (sort_entries l).
Proof.
  induction l as [|e l IH]; simpl; [constructor|].
  by apply insert_entry_sorted.
Qed.

Lemma entry_le_key e1 e2 : entry_key e1 = entry_key e2 → entry_le e1 e2.
Proof. intros [= H1 H2]. right. by rewrite H2. Qed.

Lemma insert_entry_filter_key k e l :
  filter (λ x, entry_key x = k) (insert_entry e l)
  = filter (λ x, entry_key x = k) (e :: l).
Proof.
  induction l as [|e' l IH]; simpl; [done|].
  case_decide as Hle; [done|].
  rewrite (filter_cons _ e'), IH, !(filter_cons _ e), (filter_cons _ e').
  repeat case_decide; try done.
  destruct Hle. apply entry_le_key. congruence.
Qed.

(** X9. The items of a section of the Markdown report, and the lines of
    the console report, are the entries sorted by rank of severity, then by
    path; nothing is lost or added; entries with the same rank and path
    keep the order in which they were emitted. *)
Theorem sort_entries_stable l :
  StronglySorted entry_le (sort_entries l)
  ∧ sort_entries l ≡ₚ l
  ∧ ∀ k, filter (λ e, entry_key e = k) (sort_entries l)
         = filter (λ e, entry_key e = k) l.
Proof.
  split_and!; [apply sort_entries_sorted|apply sort_entries_perm|].
  intros k. induction l as [|e l IH]; simpl; [done|].
  by rewrite insert_entry_filter_key, !filter_cons, IH.
Qed.

(** ** The sections of the Markdown report *)

Lemma md_sections_names (r : gmap string (list DiffEntry)) :
  (md_sections r).*1 = sorted_strings (elements (dom r)).
Proof.
  unfold md_sections. rewrite <- list_fmap_compose.
  induction (sorted_strings _) as [|c l IH]; [done|].
  rewrite fmap_cons. by rewrite IH.
Qed.

Lemma run_no_empty_bucket es : no_empty_bucket (group es ∅).
Proof. apply no_empty_bucket_group. intros c l. by rewrite lookup_empty. Qed.

Lemma bucket_nonempty (r : gmap string (list DiffEntry)) c :
  no_empty_bucket r → bucket r c ≠ [] ↔ c ∈ dom r.
Proof.
  intros Hr. unfold bucket. rewrite elem_of_dom.
  destruct (r !! c) as [l|] eqn:Hl; simpl.
  - split; [by eexists|]. intros _. by eapply Hr.
  - split; [done|by intros [? [=]]].
Qed.

(** X10. The Markdown report of a run has one section for each category
    that has an entry, and no other; the sections come in strictly
    ascending order of category; the items of a section are the entries of
    the bucket, none lost and none added, in the order of severity, then
    path. No section is empty. *)
Theorem report_sections fr old_doc new_doc only_changed r :
  diff_dumps fr old_doc new_doc only_changed = Some r →
  StronglySorted (strict String.le) (md_sections r).*1
  ∧ (∀ c, c ∈ (md_sections r).*1 ↔ bucket r c ≠ [])
  ∧ (∀ c items, (c, items) ∈ md_sections r →
       items ≠ [] ∧ items ≡ₚ bucket r c ∧ StronglySorted entry_le items).
Proof.
  intros (O & N & _ & _ & ->)%diff_dumps_Some.
  set (r := group _ ∅).
  assert (Hr : no_empty_bucket r) by apply run_no_empty_bucket.
  rewrite md_sections_names. split_and!.
  - apply sorted_elements_strict.
  - intros c. by rewrite elem_of_sorted_elements, bucket_nonempty.
  - intros c items (c' & [= -> ->] & Hc%elem_of_sorted_elements)%list_elem_of_fmap.
    fold (bucket r c'). unfold md_items. split_and!.
    + apply (bucket_nonempty r c' Hr) in Hc. intros Hnil. apply Hc.
      apply Permutation_nil_r. rewrite <- Hnil. symmetry. apply sort_entries_perm.
    + apply sort_entries_perm.
    + apply sort_entries_sorted.
Qed.

Lemma report_sections_witness :
  ∃ r, diff_dumps repr_nan kernel_old kernel_new false = Some r
     ∧ ∀ c, c ∈ (md_sections r).*1 ↔ bucket r c ≠ [].
Proof.
  eexists. split; [reflexivity|].
  apply (report_sections repr_nan kernel_old kernel_new false _ eq_refl).
Defined.

(* ===================================================================== *)
(** * The JSON diff                                                       *)
(* ===================================================================== *)

Lemma entry_object_eq e :
  entry_object e
  = VDict [("new", VScalar (new e));
           ("note", match note e with
                    | Some n => VScalar (SStr n)
                    | None => VNull
                    end);
           ("old", VScalar (old e));
           ("path", VScalar (SStr (path e)));
           ("severity", VScalar (SStr (severity e)))].
Proof. reflexivity. Qed.

Global Instance entry_object_inj : Inj (=) (=) entry_object.
Proof.
  intros [p1 o1 n1 s1 t1] [p2 o2 n2 s2 t2]. rewrite !entry_object_eq. simpl.
  intros [= -> Ht -> -> ->]. f_equal.
  destruct t1, t2; by simplify_eq.
Qed.

Lemma elem_of_json_items (diffs : gmap string (list DiffEntry)) c v :
  (c, v) ∈ sort_items (json_items diffs)
  ↔ ∃ es, diffs !! c = Some es ∧ v = VList (entry_object <$> es).
Proof.
  unfold sort_items, json_items. rewrite merge_sort_Permutation.
  rewrite list_elem_of_fmap. split.
  - intros ([c' es] & [= -> ->] & H%elem_of_map_to_list). eauto.
  - intros (es & H & ->). exists (c, es). split; [done|].
    by apply elem_of_map_to_list.
Qed.

Global Instance key_le_trans : Transitive key_le.
Proof. intros a b c. unfold key_le. apply transitivity. Qed.

Global Instance key_le_total : Total key_le.
Proof. intros a b. unfold key_le. apply total, _. Qed.

Lemma elements_dom_perm {A} (m : gmap string A) :
  (map_to_list m).*1 ≡ₚ elements (dom m).
Proof.
  apply NoDup_Permutation.
  - apply NoDup_fst_map_to_list.
  - apply NoDup_elements.
  - intros k. rewrite elem_of_elements, elem_of_dom, list_elem_of_fmap. split.
    + intros ([k' v] & -> & H%elem_of_map_to_list). by eexists.
    + intros [v Hv]. exists (k, v). split; [done|]. by apply elem_of_map_to_list.
Qed.

Lemma json_items_keys (diffs : gmap string (list DiffEntry)) :
  (sort_items (json_items diffs)).*1 = sorted_strings (elements (dom diffs)).
Proof.
  apply (StronglySorted_unique String.le).
  - apply (StronglySorted_fmap _ key_le); [done|].
    apply StronglySorted_merge_sort; apply _.
  - apply sorted_strings_sorted.
  - unfold sort_items, json_items.
    rewrite merge_sort_Permutation, sorted_strings_perm, <- elements_dom_perm.
    rewrite <- list_fmap_compose.
    induction (map_to_list diffs) as [|[c es] l IH]; [done|].
    rewrite !fmap_cons. by rewrite IH.
Qed.

(** X11. The document that [write_json] writes. Its keys are the
    categories, in ascending order; each holds the list of the entries of
    the bucket, in the order of the bucket. Every entry is an object with
    the five keys [new], [note], [old], [path] and [severity], in this
    order; the key [note] is always there, with null for an entry without
    note. Nothing is lost: two results with the same document are the
    same. *)
Theorem json_doc_faithful (diffs : gmap string (list DiffEntry)) :
  (∃ items, json_doc diffs = VDict items
            ∧ items.*1 = sorted_strings (elements (dom diffs))
            ∧ ∀ c v, (c, v) ∈ items ↔
                ∃ es, diffs !! c = Some es ∧ v = VList (entry_object <$> es))
  ∧ (∀ e, entry_object e
          = VDict [("new", VScalar (new e));
                   ("note", match note e with
                            | Some n => VScalar (SStr n)
                            | None => VNull
                            end);
                   ("old", VScalar (old e));
                   ("path", VScalar (SStr (path e)));
                   ("severity", VScalar (SStr (severity e)))])
  ∧ (∀ diffs', json_doc diffs = json_doc diffs' → diffs = diffs').
Proof.
  split_and!.
  - eexists. split; [done|].
    split; [apply json_items_keys|apply elem_of_json_items].
  - apply entry_object_eq.
  - intros diffs' [= H].
    assert (Hsub : ∀ d1 d2 : gmap string (list DiffEntry),
              sort_items (json_items d1) = sort_items (json_items d2) →
              ∀ c es, d1 !! c = Some es → d2 !! c = Some es).
    { intros d1 d2 Heq c es Hc.
      assert (Hin : (c, VList (entry_object <$> es)) ∈ sort_items (json_items d1))
        by (apply elem_of_json_items; eauto).
      rewrite Heq in Hin. apply elem_of_json_items in Hin as (es' & Hc' & [= He]).
      apply (inj (fmap entry_object)) in He. by subst. }
    apply map_eq. intros c.
    destruct (diffs !! c) as [es|] eqn:H1.
    + symmetry. by eapply Hsub.
    + destruct (diffs' !! c) as [es|] eqn:H2; [|done].
      apply (Hsub diffs' diffs) in H2; [congruence|done].
Qed.

(* ===================================================================== *)
(** * The console report and the exit status                              *)
(* ===================================================================== *)






(** ** Values in a report *)

Lemma endswith_app a b : Str.endswith (a +:+ b) b = true.
Proof.
  unfold Str.endswith. rewrite length_app_string.
  replace (String.length a + String.length b - String.length b)%nat
    with (String.length a) by lia.
  rewrite drop_app_string, String.eqb_refl, andb_true_r.
  apply Nat.leb_le. lia.
Qed.

(** X13. [fmt_value] with a bound of 3 or more. A leaf whose text fits in
    the bound is printed as it is. A longer one is cut: the result has
    exactly the length of the bound, ends in three dots, and starts with
    the first characters of the text. *)
Theorem fmt_value_bound fr v maxlen :
  3 ≤ maxlen →
  let s := py_str fr v in
  let out := fmt_value fr v maxlen in
  (Z.of_nat (String.length s) ≤ maxlen → out = s)
  ∧ (maxlen < Z.of_nat (String.length s) →
     Z.of_nat (String.length out) = maxlen
     ∧ Str.endswith out "..." = true
     ∧ Str.take (Z.to_nat (maxlen - 3)) out = Str.take (Z.to_nat (maxlen - 3)) s).
Proof.
  intros Hm s out. unfold out, fmt_value. fold s. split; intros Hs.
  - by rewrite (proj2 (Z.ltb_ge _ _)) by lia.
  - rewrite (proj2 (Z.ltb_lt _ _)) by lia. unfold Str.slice_to.
    rewrite (proj2 (Z.leb_le _ _)) by lia. split_and!.
    + rewrite length_app_string, length_take. simpl. lia.
    + apply endswith_app.
    + apply take_take_app. lia.
Qed.

Lemma fmt_value_bound_witness :
  3 ≤ 10
  ∧ Z.of_nat (String.length (fmt_value repr_nan (SStr "0123456789abcdef") 10))
    = 10.
Proof.
  split; [lia|].
  apply (fmt_value_bound repr_nan (SStr "0123456789abcdef") 10); [lia|].
  cbn. lia.
Defined.

(** ** The first line of a text *)








(* ===================================================================== *)
(** * The rules of the classifier                                        *)
(* ===================================================================== *)

(** A path below one prefix is not a text that the prefix does not start. *)
Lemma eqb_not_prefixed p P L :
  Str.startswith p P = true → String.prefix P L = false → String.eqb p L = false.
Proof.
  intros Hp HL. destruct (String.eqb_spec p L) as [->|]; [|done].
  unfold Str.startswith in Hp. congruence.
Qed.

(** A path below one prefix is not below a prefix that goes another way. *)
Lemma startswith_other p P P2 :
  Str.startswith p P = true →
  String.prefix P P2 = false → String.prefix P2 P = false →
  Str.startswith p P2 = false.
Proof.
  unfold Str.startswith. intros Hp H1 H2.
  destruct (String.prefix P2 p) eqn:Hp2; [|done].
  destruct (prefix_comparable _ _ _ Hp Hp2); congruence.
Qed.

Ltac skip_rules Hp :=
  repeat match goal with
    | |- context [String.eqb ?p ?L] =>
        rewrite (eqb_not_prefixed p _ L Hp eq_refl)
    | |- context [Str.startswith ?p ?P2] =>
        rewrite (startswith_other p _ P2 Hp eq_refl eq_refl)
    end.

(** X15. Below [cpu_topology.per_cpu_governors.] the classifier looks at
    the new value only: [CRITICAL], with the note on the governor, when the
    new value is not null and its text, in lower case, is neither empty nor
    [performance]; [WARNING] without note otherwise. Neither the old value
    nor the context has a say. *)
Theorem governor_rule fr p a b ctx :
  Str.startswith p "cpu_topology.per_cpu_governors." = true →
  severity_of fr p a b ctx
  = if decide (b ≠ SNull ∧ Str.lower (py_str fr b) ≠ ""
               ∧ Str.lower (py_str fr b) ≠ "performance")
    then ("CRITICAL", Some "governor != performance")
    else ("WARNING", None).
Proof.
  intros Hp. unfold severity_of. skip_rules Hp. rewrite Hp.
  destruct b as [|t|z|f|s]; [by rewrite decide_False by (by intros [? _])|..];
    (match goal with
     | |- context [String.eqb ?t ""] =>
         destruct (String.eqb_spec t "") as [He|He];
         [by rewrite decide_False by (by intros (_ & ? & _))|];
         destruct (String.eqb_spec t "performance") as [Hq|Hq];
         [by rewrite decide_False by (by intros (_ & _ & ?))|];
         by rewrite decide_True
     end).
Qed.

Lemma governor_rule_witness :
  severity_of repr_nan "cpu_topology.per_cpu_governors.cpu0"
              (SStr "performance") (SStr "Powersave")
              {| irq_affinity_present := false |}
  = ("CRITICAL", Some "governor != performance").
Proof.
  rewrite (governor_rule repr_nan "cpu_topology.per_cpu_governors.cpu0") by reflexivity.
  reflexivity.
Defined.

Lemma andb_true_3 a b c : a && b && c = true → a = true ∧ b = true ∧ c = true.
Proof. by destruct a, b, c. Qed.

Lemma rings_rule fr p a b ctx :
  rings_family p = true →
  severity_of fr p a b ctx
  = match parse_int fr a, parse_int fr b with
    | Some o, Some n =>
        if n <? o then ("CRITICAL", Some "ring size reduced") else ("INFO", None)
    | _, _ => ("INFO", None)
    end.
Proof.
  unfold rings_family, severity_of, reduced.
  intros (Hp & Hr & Hf%negb_true_iff)%andb_true_3.
  skip_rules Hp. rewrite Hp, Hf, Hr. simpl.
  by destruct (parse_int fr a), (parse_int fr b); try destruct (_ <? _).
Qed.

(** X16. The rules of the numeric settings of an interface. For a path of
    the rings, and for a path of the channels: [CRITICAL] with a note when
    both values parse as integers and the new one is smaller, [INFO]
    otherwise. For a path of the coalesce settings: [CRITICAL] with a note
    when both values parse and differ by 32 or more, [WARNING] otherwise.
    A value that does not parse never makes the classifier fail. *)
Theorem numeric_rules fr p a b ctx :
  (rings_family p = true →
   severity_of fr p a b ctx
   = match parse_int fr a, parse_int fr b with
     | Some o, Some n =>
         if n <? o then ("CRITICAL", Some "ring size reduced") else ("INFO", None)
     | _, _ => ("INFO", None)
     end)
  ∧ (channels_family p = true →
     severity_of fr p a b ctx
     = match parse_int fr a, parse_int fr b with
       | Some o, Some n =>
           if n <? o then ("CRITICAL", Some "channels reduced") else ("INFO", None)
       | _, _ => ("INFO", None)
       end)
  ∧ (coalesce_family p = true →
     severity_of fr p a b ctx
     = match parse_int fr a, parse_int fr b with
       | Some o, Some n =>
           if 32 <=? Z.abs (n - o)
           then ("CRITICAL", Some "coalesce changed drastically")
           else ("WARNING", None)
       | _, _ => ("WARNING", None)
       end).
Proof.
  split_and!; [apply rings_rule| |];
    unfold channels_family, coalesce_family, severity_of, reduced, drastic;
    intros H.
  - apply andb_prop in H as [H Hr%negb_true_iff].
    apply andb_true_3 in H as (Hp & Hc & Hf%negb_true_iff).
    skip_rules Hp. rewrite Hp, Hf, Hr, Hc. simpl.
    by destruct (parse_int fr a), (parse_int fr b); try destruct (_ <? _).
  - apply andb_prop in H as [H Hc%negb_true_iff].
    apply andb_prop in H as [H Hr%negb_true_iff].
    apply andb_true_3 in H as (Hp & Hco & Hf%negb_true_iff).
    skip_rules Hp. rewrite Hp, Hf, Hr, Hc, Hco. simpl.
    by destruct (parse_int fr a), (parse_int fr b); try destruct (_ <=? _).
Qed.

Lemma numeric_rules_witness :
  rings_family "network.interfaces.eth0.ethtool.rings.rx" = true
  ∧ severity_of repr_nan "network.interfaces.eth0.ethtool.rings.rx"
                (SStr "4096") (SStr "0x200") {| irq_affinity_present := false |}
    = ("CRITICAL", Some "ring size reduced").
Proof.
  split; [reflexivity|].
  rewrite (proj1 (numeric_rules repr_nan _ _ _ _)) by reflexivity.
  reflexivity.
Defined.

(** The flag of a snapshot: the truth value of what sits under
    [irq.smp_affinity_list]. *)
Lemma compute_irq_affinity_present_truthy d :
  compute_irq_affinity_present d
  = match affinity_subtree d with Some aff => truthy aff | None => false end.
Proof.
  unfold compute_irq_affinity_present, affinity_subtree.
  destruct d as [s|vs|top]; simpl; [done..|].
  destruct (dict_get top "irq") as [irq|]; simpl; [|done].
  destruct irq as [s|vs|irq]; simpl.
  - unfold or_empty at 2. simpl. by destruct (scalar_truthy s).
  - unfold or_empty at 2. simpl. by destruct vs.
  - unfold or_empty at 2. simpl. destruct irq as [|kv irq]; [done|].
    cbn [py_get mbind option_bind].
    destruct (dict_get (kv :: irq) "smp_affinity_list") as [aff|]; simpl; [|done].
    unfold or_empty. by destruct (truthy aff) eqn:Ht.
Qed.

Lemma compute_irq_affinity_present_shape d :
  affinity_shape d = true → compute_irq_affinity_present d = has_affinity_entry d.
Proof.
  rewrite compute_irq_affinity_present_truthy.
  unfold affinity_shape, has_affinity_entry.
  destruct (affinity_subtree d) as [[s|[|v vs]|[|kv kvs]]|]; simpl; try done.
  by intros ->%negb_true_iff.
Qed.

(** X17. On two snapshots whose [irq.smp_affinity_list], where present, is
    a container or a falsy leaf, a change of
    [services_sysctl.irqbalance.state] is [CRITICAL], with its note, exactly
    when one of the snapshots has at least one entry under
    [irq.smp_affinity_list], and [WARNING] without note otherwise. *)
Theorem irqbalance_rule fr old_doc new_doc a b :
  affinity_shape old_doc = true → affinity_shape new_doc = true →
  severity_of fr "services_sysctl.irqbalance.state" a b
              (diff_context old_doc new_doc)
  = if has_affinity_entry old_doc || has_affinity_entry new_doc
    then ("CRITICAL", Some "irqbalance change with IRQ pinning")
    else ("WARNING", None).
Proof.
  intros Ho Hn. unfold diff_context.
  rewrite !compute_irq_affinity_present_shape by done.
  by destruct (has_affinity_entry old_doc || has_affinity_entry new_doc).
Qed.

(** X18. Outside the governors, the rings, the channels, the coalesce
    settings and the state of irqbalance, the classification of a path
    depends on the path alone: not on the two values, not on the context. *)
Theorem severity_by_path fr fr' p a b ctx a' b' ctx' :
  value_rule p = false →
  severity_of fr p a b ctx = severity_of fr' p a' b' ctx'.
Proof.
  unfold value_rule, severity_of. intros H.
  destruct (Str.startswith p "cpu_topology.per_cpu_governors.") eqn:E1;
    [done|].
  destruct (String.eqb p "services_sysctl.irqbalance.state") eqn:E2;
    [by rewrite orb_true_r in H|].
  destruct (Str.startswith p "network.interfaces.") eqn:E3; [|done].
  destruct (Str.contains ".ethtool.rings." p) eqn:E4; [done|].
  destruct (Str.contains ".ethtool.channels." p) eqn:E5; [done|].
  destruct (Str.contains ".ethtool.coalesce." p) eqn:E6; [done|].
  done.
Qed.

Lemma irqbalance_rule_witness :
  affinity_shape pinned = true ∧ affinity_shape kernel_new = true
  ∧ severity_of repr_nan "services_sysctl.irqbalance.state"
                (SStr "active") (SStr "inactive") (diff_context pinned kernel_new)
    = ("CRITICAL", Some "irqbalance change with IRQ pinning").
Proof.
  split; [reflexivity|]. split; [reflexivity|].
  by rewrite (irqbalance_rule repr_nan pinned kernel_new).
Defined.

Lemma severity_by_path_witness :
  severity_of repr_nan "kernel.cmdline" (SStr "quiet") (SStr "")
              {| irq_affinity_present := false |}
  = severity_of repr_nan "kernel.cmdline" SNull (SInt 3)
                {| irq_affinity_present := true |}.
Proof. by apply severity_by_path. Defined.

(** ** The rule of the offload features *)

Lemma contains_app_r f u t :
  Str.contains f t = true → Str.contains f (u +:+ t) = true.
Proof.
  intros Ht. induction u as [|c u IH]; [done|].
  change (String c u +:+ t) with (String c (u +:+ t)).
  cbn [Str.contains]. by rewrite IH, orb_true_r.
Qed.

Lemma contains_prefix f s : String.prefix f s = true → Str.contains f s = true.
Proof. intros H. destruct s; cbn [Str.contains]; by rewrite H. Qed.

Lemma split_once_prefix sep s :
  String.prefix sep s = true →
  Str.split_once sep s = Some ("", Str.drop (String.length sep) s).
Proof. intros H. destruct s; cbn [Str.split_once]; by rewrite H. Qed.

(** What follows the first occurrence of a separator ends with what
    follows any occurrence of it. *)
Lemma split_once_first sep h t :
  ∃ h' u, Str.split_once sep (h +:+ sep +:+ t) = Some (h', u +:+ t).
Proof.
  induction h as [|c h IH].
  - exists "", "".
    change ("" +:+ sep +:+ t) with (sep +:+ t).
    rewrite split_once_prefix by apply prefix_app_string.
    by rewrite drop_app_string.
  - destruct (String.prefix sep (String c h +:+ sep +:+ t)) eqn:Hp.
    + exists "", (Str.drop (String.length sep) (String c h +:+ sep)).
      rewrite split_once_prefix by done. f_equal. f_equal.
      rewrite <- string_app_assoc. apply drop_app_le.
      rewrite length_app_string. lia.
    + destruct IH as (h' & u & IH). exists (String c h'), u.
      change (String c h +:+ sep +:+ t) with (String c (h +:+ sep +:+ t)) in *.
      cbn [Str.split_once]. by rewrite Hp, IH.
Qed.

(** X19. The rule of the offload features. A path below
    [network.interfaces.] that holds [.ethtool.features.] is [CRITICAL] or
    [WARNING], without note. It is [CRITICAL] as soon as one of the nine
    critical names occurs anywhere in what follows [.ethtool.features.]:
    the name of the feature need not be equal to it. *)
Theorem offload_rule fr p a b ctx h t :
  Str.startswith p "network.interfaces." = true →
  p = h +:+ ".ethtool.features." +:+ t →
  (severity_of fr p a b ctx = ("CRITICAL", None)
   ∨ severity_of fr p a b ctx = ("WARNING", None))
  ∧ ((∃ f, f ∈ crit_feats ∧ Str.contains f t = true) →
     severity_of fr p a b ctx = ("CRITICAL", None)).
Proof.
  intros Hp Heq. unfold severity_of. skip_rules Hp. rewrite Hp.
  assert (Hc : Str.contains ".ethtool.features." p = true).
  { rewrite Heq. apply contains_app_r, contains_prefix, prefix_app_string. }
  rewrite Hc. cbn [andb].
  destruct (split_once_first ".ethtool.features." h t) as (h' & u & Hs).
  rewrite <- Heq in Hs. rewrite Hs.
  destruct (existsb _ crit_feats) eqn:He; split; auto.
  intros (f & Hf & Hft). exfalso.
  assert (existsb (λ f, Str.contains f (u +:+ t)) crit_feats = true); [|congruence].
  apply existsb_exists. exists f. split; [by apply list_elem_of_In|].
  by apply contains_app_r.
Qed.

Lemma offload_rule_witness :
  severity_of repr_nan "network.interfaces.eth0.ethtool.features.tx-gso-partial"
              (SBool true) (SBool false) {| irq_affinity_present := false |}
  = ("CRITICAL", None).
Proof.
  apply (offload_rule repr_nan _ _ _ _ "network.interfaces.eth0" "tx-gso-partial");
    [reflexivity|reflexivity|].
  exists "gso". split; [|reflexivity].
  unfold crit_feats. rewrite !elem_of_cons. auto 10.
Defined.

(* ===================================================================== *)
(** * The rest of the rules                                               *)
(* ===================================================================== *)

(** X20. A path of an interface outside the features, the rings, the
    channels and the coalesce settings is a [WARNING] when it ends in
    [.mtu] and [INFO] otherwise, without note. *)
Theorem interface_default_rule fr p a b ctx :
  plain_interface_path p = true →
  severity_of fr p a b ctx
  = if Str.endswith p ".mtu" then ("WARNING", None) else ("INFO", None).
Proof.
  unfold plain_interface_path. intros H.
  apply andb_prop in H as [H Hco%negb_true_iff].
  apply andb_prop in H as [H Hch%negb_true_iff].
  apply andb_prop in H as [H Hr%negb_true_iff].
  apply andb_prop in H as [Hp Hf%negb_true_iff].
  unfold severity_of. skip_rules Hp.
  rewrite Hp, Hf, Hr, Hch, Hco. cbn [andb orb].
  by destruct (Str.endswith p ".mtu").
Qed.

Lemma interface_default_rule_witness :
  severity_of repr_nan "network.interfaces.eth0.mtu" (SInt 1500) (SInt 9000)
              {| irq_affinity_present := false |}
  = ("WARNING", None).
Proof. by rewrite interface_default_rule. Defined.

Lemma eqb_unknown p sec L :
  Str.startswith p sec = false → String.prefix sec L = true →
  String.eqb p L = false.
Proof.
  intros Hp HL. destruct (String.eqb_spec p L) as [->|]; [|done].
  unfold Str.startswith in Hp. congruence.
Qed.

Lemma startswith_unknown p sec P :
  Str.startswith p sec = false → String.prefix sec P = true →
  Str.startswith p P = false.
Proof.
  unfold Str.startswith. intros Hp HP.
  destruct (String.prefix P p) eqn:H; [|done].
  by rewrite (prefix_trans _ _ _ HP H) in Hp.
Qed.

Ltac skip_section Hp :=
  repeat match goal with
    | |- context [String.eqb ?p ?L] =>
        rewrite (eqb_unknown p _ L Hp eq_refl)
    | |- context [Str.startswith ?p ?P] =>
        rewrite (startswith_unknown p _ P Hp eq_refl)
    end.

(** X21. The classifier never raises the alarm on a section it does not
    know: a path outside the eight sections that have a rule is [INFO],
    without note, whatever its values. *)
Theorem unknown_section_rule fr p a b ctx :
  (∀ sec, sec ∈ known_sections → Str.startswith p sec = false) →
  severity_of fr p a b ctx = ("INFO", None).
Proof.
  intros H. unfold known_sections in H.
  assert (Hk := H "kernel."). assert (Ht := H "timekeeping.").
  assert (Hc := H "cpu_topology."). assert (Hm := H "memory.").
  assert (Hi := H "irq."). assert (Hn := H "network.").
  assert (Hto := H "toolchain."). assert (Hs := H "services_sysctl.").
  clear H.
  repeat match goal with
         | H : _ ∈ _ → _ |- _ =>
             specialize (H ltac:(rewrite !elem_of_cons; auto 10))
         end.
  unfold severity_of.
  skip_section Hk. skip_section Ht. skip_section Hc. skip_section Hm.
  skip_section Hi. skip_section Hn. skip_section Hto. skip_section Hs.
  cbn [andb orb]. rewrite ?andb_false_r.
  by destruct (Str.startswith p "containers.").
Qed.

Lemma unknown_section_rule_witness :
  severity_of repr_nan "containers.runtime" (SStr "docker") (SStr "podman")
              {| irq_affinity_present := true |}
  = ("INFO", None).
Proof.
  apply unknown_section_rule. intros sec Hs. unfold known_sections in Hs.
  repeat (apply elem_of_cons in Hs as [->|Hs]; [reflexivity|]).
  by apply elem_of_nil in Hs.
Defined.

(** X22. The rules given by a prefix. A path below
    [irq.smp_affinity_list.] is [CRITICAL]; a path below [memory.ksm.],
    [network.routes.] or [services_sysctl.sysctl.] is a [WARNING]; a path
    below [toolchain.] is a [WARNING], but for
    [toolchain.libstdcxx_max_glibcxx], which is [CRITICAL] with a note. No
    earlier rule takes these paths away, and the values play no part. *)
Theorem prefix_rules fr p a b ctx :
  (Str.startswith p "irq.smp_affinity_list." = true →
   severity_of fr p a b ctx = ("CRITICAL", None))
  ∧ (Str.startswith p "memory.ksm." = true →
     severity_of fr p a b ctx = ("WARNING", None))
  ∧ (Str.startswith p "network.routes." = true →
     severity_of fr p a b ctx = ("WARNING", None))
  ∧ (Str.startswith p "services_sysctl.sysctl." = true →
     severity_of fr p a b ctx = ("WARNING", None))
  ∧ (Str.startswith p "toolchain." = true →
     severity_of fr p a b ctx
     = if String.eqb p "toolchain.libstdcxx_max_glibcxx"
       then ("CRITICAL", Some "libstdc++ ABI level changed")
       else ("WARNING", None)).
Proof.
  unfold severity_of. split_and!; intros Hp; skip_rules Hp;
    rewrite ?Hp; cbn [andb orb]; rewrite ?andb_false_r; done.
Qed.

Lemma prefix_rules_witness :
  severity_of repr_nan "toolchain.gcc_version" (SStr "12.2") (SStr "13.1")
              {| irq_affinity_present := false |}
  = ("WARNING", None).
Proof.
  by rewrite (proj2 (proj2 (proj2 (proj2 (prefix_rules repr_nan _ _ _ _))))).
Defined.

(* ===================================================================== *)
(** * Integers read back                                                  *)
(* ===================================================================== *)











(* ===================================================================== *)
(** * The integers that [parse_int] reads                                 *)
(* ===================================================================== *)





















(* ===================================================================== *)
(** * Categories                                                          *)
(* ===================================================================== *)

Lemma category_of_nil : category_of "" = "".
Proof. done. Qed.

Lemma category_of_cons c s :
  category_of (String c s)
  = if Ascii.eqb c "." then "" else String c (category_of s).
Proof.
  unfold category_of. cbn [Str.contains Str.split_once String.prefix].
  destruct (ascii_dec "." c) as [<-|Hc].
  - by rewrite prefix_empty.
  - destruct (Ascii.eqb_spec c ".") as [->|_]; [done|]. simpl.
    destruct (Str.contains "." s); [|done].
    by destruct (Str.split_once "." s) as [[a b]|].
Qed.

Lemma contains_dot_cons c s :
  Str.contains "." (String c s) = Ascii.eqb c "." || Str.contains "." s.
Proof.
  cbn [Str.contains String.prefix].
  destruct (ascii_dec "." c) as [<-|Hc].
  - by rewrite prefix_empty.
  - by destruct (Ascii.eqb_spec c ".") as [->|_].
Qed.

Lemma category_of_no_dot p : Str.contains "." (category_of p) = false.
Proof.
  induction p as [|c p IH]; [done|]. rewrite category_of_cons.
  destruct (Ascii.eqb c ".") eqn:Hc; [done|].
  by rewrite contains_dot_cons, Hc, IH.
Qed.

Lemma category_of_app k rest :
  Str.contains "." k = false →
  category_of k = k ∧ category_of (k +:+ "." +:+ rest) = k.
Proof.
  induction k as [|c k IH].
  { intros _. split; [done|].
    change ("" +:+ "." +:+ rest) with (String "." rest).
    by rewrite category_of_cons. }
  rewrite contains_dot_cons. intros [Hc Hk]%orb_false_elim.
  destruct (IH Hk) as [IH1 IH2].
  change (String c k +:+ "." +:+ rest) with (String c (k +:+ "." +:+ rest)).
  by rewrite !category_of_cons, Hc, IH1, IH2.
Qed.

(** X25. The category of a path is its longest prefix without a dot: it
    holds no dot; the path is the category itself, or the category, a dot
    and a rest; and a text without dot is the category of itself and of
    every path made of it, a dot and a rest. *)
Theorem category_of_spec p :
  Str.contains "." (category_of p) = false
  ∧ (p = category_of p ∨ ∃ rest, p = category_of p +:+ "." +:+ rest)
  ∧ (∀ k rest, Str.contains "." k = false →
       category_of k = k ∧ category_of (k +:+ "." +:+ rest) = k).
Proof.
  split_and!; [apply category_of_no_dot| |apply category_of_app].
  induction p as [|c p IH]; [by left|]. rewrite category_of_cons.
  destruct (Ascii.eqb_spec c ".") as [->|Hc]; [right; by exists p|].
  destruct IH as [IH|[rest IH]].
  - left. by rewrite <- IH.
  - right. exists rest.
    change (String c p = String c (category_of p +:+ "." +:+ rest)).
    by rewrite <- IH.
Qed.

(* ===================================================================== *)
(** * The flattener                                                       *)
(* ===================================================================== *)

(** Induction on a document: a property of the children carries over to
    the container. *)
Lemma Value_children_ind (P : Value → Prop) :
  (∀ s, P (VScalar s)) →
  (∀ d, Forall (λ c, P c.2) (children d) → P d) →
  ∀ d, P d.
Proof.
  intros Hs Hc. fix IH 1. intros [s|vs|kvs].
  - apply Hs.
  - apply Hc. simpl.
    assert (H : Forall P vs) by (induction vs as [|v vs IHvs]; constructor; auto).
    clear IH. generalize 0%nat.
    induction H as [|v vs Hv _ IHvs]; intros i; simpl; constructor; auto.
  - apply Hc. simpl. induction kvs as [|[k v] kvs IHkvs]; constructor; auto.
Qed.

Lemma flatten_children d p :
  match d with VScalar _ => False | _ => True end →
  flatten d p
  = foldl (λ res c, flatten c.2 (child_key p c.1) ∪ res) ∅ (children d).
Proof.
  destruct d as [s|vs|kvs]; [done|..]; intros _; simpl.
  - generalize (∅ : gmap string Scalar). generalize 0%nat.
    induction vs as [|v vs IH]; intros i res; [done|]. simpl. apply IH.
  - generalize (∅ : gmap string Scalar).
    induction kvs as [|[k v] kvs IH]; intros res; [done|]. simpl. apply IH.
Qed.

Lemma paths_children d :
  match d with VScalar _ => False | _ => True end →
  paths d = children d ≫= λ c, prod_map (cons c.1) id <$> paths c.2.
Proof.
  destruct d as [s|vs|kvs]; [done|..]; intros _; simpl.
  - generalize 0%nat.
    induction vs as [|v vs IH]; intros i; [done|].
    cbn [enumerate]. by rewrite bind_cons, IH.
  - induction kvs as [|[k v] kvs IH]; [done|].
    rewrite fmap_cons, bind_cons. by rewrite IH.
Qed.

Lemma leaves_children d p :
  match d with VScalar _ => False | _ => True end →
  leaves d p = children d ≫= λ c, leaves c.2 (child_key p c.1).
Proof.
  intros Hd. unfold leaves. rewrite paths_children by done.
  induction (children d) as [|[seg v] cs IH]; [done|].
  rewrite !bind_cons, fmap_app, IH. f_equal. simpl.
  rewrite <- list_fmap_compose. apply list_fmap_ext.
  intros _ [q s] _. by destruct seg.
Qed.

Lemma foldl_union_list_to_map (cs : list (Seg * Value))
    (F : Seg * Value → gmap string Scalar)
    (L : Seg * Value → list (string * Scalar)) (l0 : list (string * Scalar)) :
  Forall (λ c, F c = list_to_map (reverse (L c))) cs →
  foldl (λ res c, F c ∪ res) (list_to_map (reverse l0)) cs
  = list_to_map (reverse (l0 ++ (cs ≫= L))).
Proof.
  intros H. revert l0. induction H as [|c cs Hc _ IH]; intros l0.
  - simpl. by rewrite app_nil_r.
  - cbn [foldl]. rewrite bind_cons, Hc, <- list_to_map_app, <- reverse_app, IH.
    by rewrite <- app_assoc.
Qed.

Lemma flatten_list_to_map d p :
  flatten d p = list_to_map (reverse (leaves d p)).
Proof.
  revert p. induction d as [s|d IH] using Value_children_ind; intros p; [done|].
  destruct d as [s|vs|kvs]; [done|..];
    rewrite flatten_children, leaves_children by done;
    apply (foldl_union_list_to_map _ _ (λ c, leaves c.2 (child_key p c.1)) []);
    (eapply Forall_impl; [exact IH|]); intros c Hc; apply Hc.
Qed.

(** X26. The flattened map of a document holds the leaves of the document
    under their addresses: it is the map built from the pairs of address
    and leaf, in the order of the document, a later leaf taking the place
    of an earlier one with the same address. Every address starts with the
    prefix. *)
Theorem flatten_leaves d p :
  flatten d p = list_to_map (reverse (leaves d p))
  ∧ ∀ k s, (k, s) ∈ leaves d p → Str.startswith k p = true.
Proof.
  split; [apply flatten_list_to_map|].
  intros k s ([q s'] & [= -> ->] & _)%list_elem_of_fmap. simpl.
  apply startswith_app. clear s'. revert p.
  induction q as [|seg q IH]; intros p; simpl.
  { exists "". by rewrite string_app_nil_r. }
  destruct seg as [key|i]; simpl.
  - destruct (IH (dict_key p key)) as [x ->].
    destruct p as [|c p]; [by eexists|].
    unfold dict_key. eexists. by rewrite !string_app_assoc.
  - destruct (IH (list_key p i)) as [x ->].
    unfold list_key. eexists. by rewrite !string_app_assoc.
Qed.

(** ** The category of an address *)

Lemma contains_dot_app a b :
  Str.contains "." (a +:+ b) = Str.contains "." a || Str.contains "." b.
Proof.
  induction a as [|c a IH]; [done|].
  change (String c a +:+ b) with (String c (a +:+ b)).
  by rewrite !contains_dot_cons, IH, orb_assoc.
Qed.

Lemma string_of_uint_no_dot d :
  Str.contains "." (NilEmpty.string_of_uint d) = false.
Proof.
  induction d; cbn [NilEmpty.string_of_uint]; rewrite ?contains_dot_cons; auto.
Qed.

Lemma of_nat_no_dot i : Str.contains "." (Str.of_nat i) = false.
Proof.
  unfold Str.of_nat, NilZero.string_of_uint.
  destruct (Nat.to_uint i); try done; apply string_of_uint_no_dot.
Qed.

Lemma no_separator_no_dot k : no_separator k = true → Str.contains "." k = false.
Proof.
  induction k as [|c k IH]; [done|]. rewrite contains_dot_cons.
  cbn [no_separator]. intros [Hc Hk]%andb_prop. rewrite (IH Hk), orb_false_r.
  unfold is_separator in Hc. by destruct (Ascii.eqb c ".").
Qed.

Lemma addr_suffix p q : p ≠ "" → addr p q = p +:+ suffix q.
Proof.
  revert p. induction q as [|[k|i] q IH]; intros p Hp; simpl.
  - by rewrite string_app_nil_r.
  - rewrite IH.
    + destruct p; [done|]. unfold dict_key. by rewrite !string_app_assoc.
    + by destruct p, k.
  - rewrite IH.
    + unfold list_key. by rewrite !string_app_assoc.
    + by destruct p.
Qed.

Lemma category_of_suffix k q :
  Str.contains "." k = false →
  category_of (k +:+ suffix q) = k +:+ suffix (leading_indices q).
Proof.
  revert k. induction q as [|[k'|i] q IH]; intros k Hk; simpl.
  - rewrite string_app_nil_r. by apply category_of_app.
  - rewrite string_app_nil_r. by apply category_of_app.
  - rewrite <- !(string_app_assoc k "["), <- !(string_app_assoc _ (Str.of_nat i)),
      <- !(string_app_assoc _ "]").
    apply IH. by rewrite !contains_dot_app, Hk, of_nat_no_dot.
Qed.

(** X27. The bucket of a leaf. A leaf reached from a top-level key [k]
    that holds no dot and no bracket has the category [k], unless [k] holds
    a sequence: then the category is [k] followed by the indices with which
    the path starts, as in [k[0]], and each element of the sequence gets a
    bucket of its own. *)
Theorem category_of_addr k q :
  plain_key k = true →
  category_of (addr "" (Key k :: q)) = addr k (leading_indices q).
Proof.
  intros [Hne Hk%no_separator_no_dot]%andb_prop.
  assert (k ≠ "") by (by destruct k).
  cbn [addr dict_key]. rewrite !addr_suffix by done.
  by apply category_of_suffix.
Qed.

Lemma category_of_addr_witness :
  category_of (addr "" [Key "routes"; Idx 0; Key "dst"]) = "routes[0]".
Proof. by rewrite category_of_addr. Defined.

(** ** Keys that the address syntax cannot carry *)

Lemma dict_key_nested p a b :
  a ≠ "" → dict_key (dict_key p a) b = dict_key p (a +:+ "." +:+ b).
Proof.
  intros Ha. destruct p as [|c p]; simpl.
  - by destruct a.
  - by rewrite !string_app_assoc.
Qed.

Lemma list_key_nested p a i :
  list_key (dict_key p a) i = dict_key p (a +:+ "[" +:+ Str.of_nat i +:+ "]").
Proof.
  destruct p as [|c p]; simpl; [done|].
  unfold list_key. by rewrite !string_app_assoc.
Qed.

(** X28. Flattening does not tell a key with a dot from nesting, a key
    that ends in an index from a sequence, nor the empty key at top level
    from no key at all: the documents of each pair below flatten to the
    same map. Within one document two such keys meet at one address, and
    the leaf that comes later is the only one kept. *)
Theorem flatten_collisions p a b v s1 s2 :
  (a ≠ "" →
   flatten (VDict [(a +:+ "." +:+ b, v)]) p
   = flatten (VDict [(a, VDict [(b, v)])]) p)
  ∧ flatten (VDict [(a +:+ "[0]", v)]) p = flatten (VDict [(a, VList [v])]) p
  ∧ flatten (VDict [("", v)]) "" = flatten v ""
  ∧ (a ≠ "" →
     flatten (VDict [(a +:+ "." +:+ b, VScalar s1);
                     (a, VDict [(b, VScalar s2)])]) p
     = {[ dict_key p (a +:+ "." +:+ b) := s2 ]}).
Proof.
  split_and!.
  - intros Ha. cbn [flatten].
    by rewrite !(right_id_L ∅ (∪)), dict_key_nested.
  - cbn [flatten]. rewrite !(right_id_L ∅ (∪)).
    by rewrite (list_key_nested p a 0).
  - cbn [flatten dict_key]. by rewrite (right_id_L ∅ (∪)).
  - intros Ha. cbn [flatten]. rewrite dict_key_nested by done.
    rewrite !(right_id_L ∅ (∪)). apply map_eq. intros k.
    rewrite lookup_union.
    destruct (decide (k = dict_key p (a +:+ "." +:+ b))) as [->|Hk].
    + by rewrite !lookup_singleton_eq.
    + by rewrite !lookup_singleton_ne.
Qed.

Lemma flatten_collisions_witness :
  flatten (VDict [("a.b", VScalar (SInt 1))]) ""
  = flatten (VDict [("a", VDict [("b", VScalar (SInt 1))])]) "".
Proof.
  by apply (proj1 (flatten_collisions "" "a" "b" (VScalar (SInt 1)) SNull SNull)).
Defined.

(* ===================================================================== *)
(** * Addresses that can be read back                                     *)
(* ===================================================================== *)

(** A text cut at the first character of a kind is cut in one way only. *)
Lemma split_unique (P : ascii → bool) a1 a2 r1 r2 :
  all_chars (λ c, negb (P c)) a1 = true →
  all_chars (λ c, negb (P c)) a2 = true →
  head_in P r1 = true → head_in P r2 = true →
  a1 +:+ r1 = a2 +:+ r2 → a1 = a2 ∧ r1 = r2.
Proof.
  revert a2. induction a1 as [|c1 a1 IH]; intros [|c2 a2] H1 H2 Hr1 Hr2 Heq.
  - done.
  - change ("" +:+ r1) with r1 in Heq.
    change (String c2 a2 +:+ r2) with (String c2 (a2 +:+ r2)) in Heq.
    subst r1. simpl in *. apply andb_prop in H2 as [H2 _].
    rewrite Hr1 in H2. done.
  - change ("" +:+ r2) with r2 in Heq.
    change (String c1 a1 +:+ r1) with (String c1 (a1 +:+ r1)) in Heq.
    subst r2. simpl in *. apply andb_prop in H1 as [H1 _].
    rewrite Hr2 in H1. done.
  - change (String c1 (a1 +:+ r1) = String c2 (a2 +:+ r2)) in Heq.
    injection Heq as -> Heq. simpl in *.
    apply andb_prop in H1 as [_ H1]. apply andb_prop in H2 as [_ H2].
    destruct (IH a2 H1 H2 Hr1 Hr2 Heq) as [-> ->]. done.
Qed.

Lemma string_of_uint_digits (P : ascii → bool) d :
  (∀ c, is_dec_digit c = true → P c = false) →
  all_chars (λ c, negb (P c)) (NilEmpty.string_of_uint d) = true.
Proof.
  intros HP. induction d; simpl; rewrite ?IHd, ?andb_true_r; try done;
    by rewrite HP.
Qed.

Lemma of_nat_digits (P : ascii → bool) i :
  (∀ c, is_dec_digit c = true → P c = false) →
  all_chars (λ c, negb (P c)) (Str.of_nat i) = true.
Proof.
  intros HP. unfold Str.of_nat, NilZero.string_of_uint.
  destruct (Nat.to_uint i) eqn:Hi;
    [simpl; by rewrite HP|rewrite <- Hi..]; by apply string_of_uint_digits.
Qed.

Lemma string_of_uint_inj d1 d2 :
  NilEmpty.string_of_uint d1 = NilEmpty.string_of_uint d2 → d1 = d2.
Proof.
  revert d2. induction d1; intros []; simpl; intros H; try done;
    injection H as H; f_equal; auto.
Qed.

Lemma nat_to_uint_nonnil i : Nat.to_uint i ≠ Nil.
Proof.
  rewrite <- (DecimalNat.Unsigned.of_to i) at 1.
  rewrite DecimalNat.Unsigned.to_of. apply DecimalFacts.unorm_nonnil.
Qed.

Global Instance of_nat_inj : Inj (=) (=) Str.of_nat.
Proof.
  intros i j H. apply DecimalNat.Unsigned.to_uint_inj.
  unfold Str.of_nat, NilZero.string_of_uint in H.
  pose proof (nat_to_uint_nonnil i).
  pose proof (nat_to_uint_nonnil j).
  destruct (Nat.to_uint i) eqn:Hi; [done|rewrite <- Hi in *..];
    (destruct (Nat.to_uint j) eqn:Hj; [done|rewrite <- Hj in *..]);
    by apply string_of_uint_inj.
Qed.

Lemma no_separator_all_chars k :
  all_chars (λ c, negb (is_separator c)) k = no_separator k.
Proof. induction k as [|c k IH]; [done|]. simpl. by rewrite IH. Qed.

Lemma head_in_suffix q : head_in is_separator (suffix q) = true.
Proof. by destruct q as [|[k|i] q]. Qed.

Lemma digit_not_separator c : is_dec_digit c = true → is_separator c = false.
Proof.
  destruct c as [[] [] [] [] [] [] [] []]; by vm_compute.
Qed.

Lemma digit_not_bracket c : is_dec_digit c = true → Ascii.eqb c "]" = false.
Proof.
  destruct c as [[] [] [] [] [] [] [] []]; by vm_compute.
Qed.

Lemma index_split i1 i2 r1 r2 :
  Str.of_nat i1 +:+ "]" +:+ r1 = Str.of_nat i2 +:+ "]" +:+ r2 →
  i1 = i2 ∧ r1 = r2.
Proof.
  intros H.
  apply (split_unique (λ c, Ascii.eqb c "]")) in H as [Hi Hr]; try done.
  - apply (inj _) in Hi. by apply (inj (String.app "]")) in Hr.
  - apply of_nat_digits, digit_not_bracket.
  - apply of_nat_digits, digit_not_bracket.
Qed.

Lemma key_split k1 k2 q1 q2 :
  plain_key k1 = true → plain_key k2 = true →
  k1 +:+ suffix q1 = k2 +:+ suffix q2 → k1 = k2 ∧ suffix q1 = suffix q2.
Proof.
  intros [_ H1]%andb_prop [_ H2]%andb_prop.
  apply (split_unique is_separator);
    rewrite ?no_separator_all_chars, ?head_in_suffix; done.
Qed.

Lemma suffix_inj q1 q2 :
  plain_path q1 = true → plain_path q2 = true →
  suffix q1 = suffix q2 → q1 = q2.
Proof.
  revert q2. induction q1 as [|[k1|i1] q1 IH]; intros [|[k2|i2] q2];
    cbn [plain_path forallb suffix]; intros H1 H2 Heq; try done.
  - apply andb_prop in H1 as [Hk1 H1]. apply andb_prop in H2 as [Hk2 H2].
    change (String "." (k1 +:+ suffix q1) = String "." (k2 +:+ suffix q2)) in Heq.
    injection Heq as Heq.
    apply key_split in Heq as [-> Heq]; [|done..].
    f_equal. by apply IH.
  - change (String "[" (Str.of_nat i1 +:+ "]" +:+ suffix q1)
            = String "[" (Str.of_nat i2 +:+ "]" +:+ suffix q2)) in Heq.
    injection Heq as Heq. apply index_split in Heq as [-> Heq].
    f_equal. by apply IH.
Qed.

Lemma plain_key_cons k :
  plain_key k = true → ∃ c k', k = String c k' ∧ is_separator c = false.
Proof.
  destruct k as [|c k]; [done|]. unfold plain_key. simpl.
  intros [Hc _]%andb_prop. exists c, k. by destruct (is_separator c).
Qed.

Lemma addr_nil_idx i q :
  addr "" (Idx i :: q) = String "[" (Str.of_nat i +:+ "]" +:+ suffix q).
Proof.
  cbn [addr]. rewrite addr_suffix by done. unfold list_key.
  change ("" +:+ "[" +:+ Str.of_nat i +:+ "]")
    with (String "[" (Str.of_nat i +:+ "]")).
  change (String "[" (Str.of_nat i +:+ "]") +:+ suffix q)
    with (String "[" ((Str.of_nat i +:+ "]") +:+ suffix q)).
  by rewrite string_app_assoc.
Qed.

Lemma addr_nil_key k q :
  plain_key k = true →
  ∃ c k', k = String c k' ∧ is_separator c = false
          ∧ addr "" (Key k :: q) = String c (k' +:+ suffix q).
Proof.
  intros (c & k' & -> & Hc)%plain_key_cons. exists c, k'.
  split_and!; [done..|]. cbn [addr dict_key]. by rewrite addr_suffix.
Qed.

(** Two plain paths with the same address below a prefix are the same
    path. *)
Lemma addr_inj p q1 q2 :
  plain_path q1 = true → plain_path q2 = true →
  addr p q1 = addr p q2 → q1 = q2.
Proof.
  intros H1 H2. destruct (decide (p = "")) as [->|Hp].
  - destruct q1 as [|[k1|i1] q1], q2 as [|[k2|i2] q2];
      cbn [plain_path forallb] in *; try done;
      try (apply andb_prop in H1 as [Hk1 H1]);
      try (apply andb_prop in H2 as [Hk2 H2]);
      try (destruct (addr_nil_key k1 q1 Hk1) as (c1 & k1' & Hk1' & Hc1 & ->));
      try (destruct (addr_nil_key k2 q2 Hk2) as (c2 & k2' & Hk2' & Hc2 & ->));
      rewrite ?addr_nil_idx; cbn [addr]; intros Heq; try done.
    + injection Heq as -> Heq.
      assert (k1 +:+ suffix q1 = k2 +:+ suffix q2) as Hk.
      { subst k1 k2.
        change (String c2 (k1' +:+ suffix q1) = String c2 (k2' +:+ suffix q2)).
        by rewrite Heq. }
      apply key_split in Hk as [-> Hk]; [|done..].
      f_equal. by apply suffix_inj.
    + injection Heq as -> _. done.
    + injection Heq as <- _. done.
    + injection Heq as Heq. apply index_split in Heq as [-> Heq].
      f_equal. by apply suffix_inj.
  - rewrite !addr_suffix by done. intros Heq%(inj _). by apply suffix_inj.
Qed.

(** ** The leaves of a document, path by path *)

Lemma elem_of_enumerate n vs seg v :
  (seg, v) ∈ enumerate n vs ↔ ∃ i, seg = Idx (n + i) ∧ vs !! i = Some v.
Proof.
  revert n. induction vs as [|v' vs IH]; intros n; simpl.
  - split; [by intros ?%elem_of_nil|by intros (i & _ & ?)].
  - rewrite elem_of_cons, IH. split.
    + intros [[= -> ->]|(i & -> & Hi)].
      * exists 0%nat. by rewrite Nat.add_0_r.
      * exists (S i). by rewrite Nat.add_succ_r.
    + intros ([|i] & -> & Hi); simpl in Hi.
      * left. rewrite Nat.add_0_r. congruence.
      * right. exists i. by rewrite Nat.add_succ_r.
Qed.

Lemma dict_get_elem_of kvs k v : dict_get kvs k = Some v → (k, v) ∈ kvs.
Proof.
  induction kvs as [|[k' v'] kvs IH]; simpl; [done|].
  destruct (String.eqb_spec k' k) as [->|Hk].
  - intros [= ->]. left.
  - intros H. right. auto.
Qed.

Lemma dict_get_NoDup kvs k v :
  NoDup kvs.*1 → (k, v) ∈ kvs → dict_get kvs k = Some v.
Proof.
  induction kvs as [|[k' v'] kvs IH]; simpl; [by intros _ ?%elem_of_nil|].
  intros [Hk' Hnd]%NoDup_cons [[= -> ->]|Hin]%elem_of_cons.
  - by rewrite String.eqb_refl.
  - destruct (String.eqb_spec k' k) as [->|Hk]; [|auto].
    destruct Hk'. apply list_elem_of_fmap. by exists (k, v).
Qed.

Lemma keys_unique_dict kvs :
  keys_unique (VDict kvs) = true → NoDup kvs.*1.
Proof. simpl. by intros [H%bool_decide_eq_true _]%andb_prop. Qed.

(** The children of a container with distinct keys, step by step. *)
Lemma elem_of_children d seg v :
  keys_unique d = true →
  (seg, v) ∈ children d ↔ child d seg = Some v.
Proof.
  intros Hu. destruct d as [s|vs|kvs]; simpl.
  - split; [by intros ?%elem_of_nil|by destruct seg].
  - rewrite elem_of_enumerate. split.
    + by intros (i & -> & Hi).
    + destruct seg as [k|i]; [done|]. intros Hi. by exists i.
  - apply keys_unique_dict in Hu. rewrite list_elem_of_fmap. split.
    + intros ([k v'] & ? & Hin). simplify_eq/=. by apply dict_get_NoDup.
    + destruct seg as [k|i]; [|done]. intros Hk%dict_get_elem_of.
      by exists (k, v).
Qed.

Lemma Forall_forallb {A} (f : A → bool) l : forallb f l = true ↔ Forall (λ x, f x = true) l.
Proof.
  induction l as [|x l IH]; simpl; [by split; [constructor|]|].
  rewrite andb_true_iff, IH, Forall_cons. done.
Qed.

Lemma forallb_enumerate (f : Value → bool) n vs seg v :
  forallb f vs = true → (seg, v) ∈ enumerate n vs → f v = true.
Proof.
  rewrite Forall_forallb, Forall_forall.
  intros H (i & _ & Hi)%elem_of_enumerate. eapply H, list_elem_of_lookup_2, Hi.
Qed.

Lemma no_empty_child d seg v :
  no_empty d = true → (seg, v) ∈ children d → no_empty v = true.
Proof.
  destruct d as [s|vs|kvs]; simpl.
  - by intros _ ?%elem_of_nil.
  - intros [_ H]%andb_prop. by apply forallb_enumerate.
  - intros [_ H]%andb_prop ([k v'] & ? & Hin)%list_elem_of_fmap.
    simplify_eq/=.
    rewrite Forall_forallb, Forall_forall in H. by apply (H (k, v')).
Qed.

Lemma keys_unique_child d seg v :
  keys_unique d = true → (seg, v) ∈ children d → keys_unique v = true.
Proof.
  destruct d as [s|vs|kvs]; simpl.
  - by intros _ ?%elem_of_nil.
  - by apply forallb_enumerate.
  - intros [_ H]%andb_prop ([k v'] & ? & Hin)%list_elem_of_fmap.
    simplify_eq/=.
    rewrite Forall_forallb, Forall_forall in H. by apply (H (k, v')).
Qed.

Lemma keys_plain_child d seg v :
  keys_plain d = true → (seg, v) ∈ children d →
  keys_plain v = true ∧ plain_path [seg] = true.
Proof.
  destruct d as [s|vs|kvs]; simpl.
  - by intros _ ?%elem_of_nil.
  - intros H Hin. split; [by eapply forallb_enumerate|].
    by apply elem_of_enumerate in Hin as (i & -> & _).
  - intros H ([k v'] & ? & Hin)%list_elem_of_fmap. simplify_eq/=.
    rewrite Forall_forallb, Forall_forall in H.
    apply (H (k, v')) in Hin as [Hk Hv]%andb_prop. simpl in *.
    by rewrite Hk.
Qed.

Lemma children_nonempty d :
  no_empty d = true → match d with VScalar _ => True | _ => children d ≠ [] end.
Proof.
  destruct d as [s|[|v vs]|[|kv kvs]]; simpl; try done.
Qed.

Lemma elem_of_paths d q s :
  (q, s) ∈ paths d ↔
  match d with
  | VScalar s' => q = [] ∧ s = s'
  | _ => ∃ seg v q', q = seg :: q' ∧ (seg, v) ∈ children d ∧ (q', s) ∈ paths v
  end.
Proof.
  destruct d as [s'|vs|kvs].
  - simpl. rewrite list_elem_of_singleton. split; [by intros [= -> ->]|by intros [-> ->]].
  - rewrite paths_children by done. rewrite list_elem_of_bind. split.
    + intros ([seg v] & ([q' s'] & [= -> ->] & Hq)%list_elem_of_fmap & Hc). eauto 10.
    + intros (seg & v & q' & -> & Hc & Hq). exists (seg, v). split; [|done].
      apply list_elem_of_fmap. by exists (q', s).
  - rewrite paths_children by done. rewrite list_elem_of_bind. split.
    + intros ([seg v] & ([q' s'] & [= -> ->] & Hq)%list_elem_of_fmap & Hc). eauto 10.
    + intros (seg & v & q' & -> & Hc & Hq). exists (seg, v). split; [|done].
      apply list_elem_of_fmap. by exists (q', s).
Qed.

Lemma paths_plain d q s :
  keys_plain d = true → (q, s) ∈ paths d → plain_path q = true.
Proof.
  revert q. induction d as [s'|d IH] using Value_children_ind; intros q Hp.
  { by intros [-> _]%elem_of_paths. }
  rewrite elem_of_paths. destruct d as [s'|vs|kvs]; [by intros [-> _]|..];
    intros (seg & v & q' & -> & Hc & Hq);
    destruct (keys_plain_child _ _ _ Hp Hc) as [Hv Hs];
    rewrite Forall_forall in IH; specialize (IH _ Hc q' Hv Hq);
    simpl in *; by rewrite IH, andb_true_r in *.
Qed.

Lemma paths_nonempty d : no_empty d = true → ∃ q s, (q, s) ∈ paths d.
Proof.
  induction d as [s'|d IH] using Value_children_ind; intros Hn.
  { exists [], s'. by apply elem_of_paths. }
  pose proof (children_nonempty d Hn) as Hc.
  destruct d as [s'|vs|kvs]; [exists [], s'; by apply elem_of_paths|..];
    (destruct (children _) as [|[seg v] cs] eqn:Hcs; [done|]);
    (assert (Hin : (seg, v) ∈ children _) by (rewrite Hcs; left));
    apply Forall_cons in IH as [IH _];
    destruct (IH (no_empty_child _ _ _ Hn Hin)) as (q & s & Hq);
    exists (seg :: q), s; apply elem_of_paths; eauto 10.
Qed.

Lemma NoDup_children d : keys_unique d = true → NoDup (children d).*1.
Proof.
  destruct d as [s|vs|kvs]; simpl.
  - constructor.
  - intros _. generalize 0%nat. induction vs as [|v vs IH]; intros n; simpl.
    + constructor.
    + constructor; [|apply IH].
      intros ([seg v'] & Heq & (i & ? & _)%elem_of_enumerate)%list_elem_of_fmap.
      simplify_eq/=. lia.
  - intros Hu%keys_unique_dict.
    replace (((λ kv : string * Value, (Key kv.1, kv.2)) <$> kvs).*1)
      with (Key <$> kvs.*1).
    + assert (Inj (=) (=) Key) by (by intros ?? [=]).
      by apply (NoDup_fmap_2 Key).
    + clear Hu. induction kvs as [|kv kvs IH]; [done|].
      rewrite !fmap_cons. by rewrite IH.
Qed.

Lemma NoDup_fst_agree {A B} (l : list (A * B)) x y1 y2 :
  NoDup l.*1 → (x, y1) ∈ l → (x, y2) ∈ l → y1 = y2.
Proof.
  induction l as [|[x' y'] l IH]; simpl; [by intros _ ?%elem_of_nil|].
  intros [Hx Hnd]%NoDup_cons H1%elem_of_cons H2%elem_of_cons.
  assert (Hin : ∀ y, (x', y) ∈ l → False).
  { intros y Hy. apply Hx, list_elem_of_fmap. by exists (x', y). }
  destruct H1 as [?|H1], H2 as [?|H2]; simplify_eq; try done.
  - by destruct (Hin y2).
  - by destruct (Hin y1).
  - auto.
Qed.

Lemma fmap_bind_list {A B C} (f : B → C) (g : A → list B) (l : list A) :
  f <$> (l ≫= g) = l ≫= λ x, f <$> g x.
Proof.
  induction l as [|x l IH]; [done|]. by rewrite !bind_cons, fmap_app, IH.
Qed.

Lemma NoDup_paths d : keys_unique d = true → NoDup (paths d).*1.
Proof.
  induction d as [s'|d IH] using Value_children_ind; intros Hu.
  { simpl. apply NoDup_singleton. }
  destruct d as [s'|vs|kvs]; [simpl; apply NoDup_singleton|..];
    rewrite paths_children, fmap_bind_list by done;
    (apply NoDup_bind;
     [intros [seg1 v1] [seg2 v2] q H1 H2
             ([q1 s1] & -> & Hq1%list_elem_of_fmap)%list_elem_of_fmap
             ([q2 s2] & Heq & Hq2%list_elem_of_fmap)%list_elem_of_fmap;
      destruct Hq1 as ([q1' s1'] & [= -> ->] & _);
      destruct Hq2 as ([q2' s2'] & [= -> ->] & _);
      simpl in Heq; injection Heq as -> _;
      f_equal; eapply NoDup_fst_agree; [by apply NoDup_children|done..]
     |intros [seg v] Hc; simpl; rewrite <- list_fmap_compose;
      rewrite Forall_forall in IH;
      pose proof (IH _ Hc (keys_unique_child _ _ _ Hu Hc)) as Hv; simpl in Hv;
      assert (Inj (=) (=) (cons seg : list Seg → list Seg)) by (by intros ?? [=]);
      apply (NoDup_fmap_2 (cons seg)) in Hv;
      by rewrite <- list_fmap_compose in Hv
     |eapply NoDup_fmap_1, NoDup_children, Hu]).
Qed.

Lemma leaves_addresses d p : (leaves d p).*1 = addr p <$> (paths d).*1.
Proof.
  unfold leaves. rewrite <- !list_fmap_compose.
  apply list_fmap_ext. by intros _ [q s] _.
Qed.

Lemma NoDup_leaves d p :
  keys_plain d = true → keys_unique d = true → NoDup (leaves d p).*1.
Proof.
  intros Hp Hu. rewrite leaves_addresses.
  apply NoDup_fmap_2_strong; [|by apply NoDup_paths].
  intros q1 q2 ([q1' s1] & -> & H1)%list_elem_of_fmap
               ([q2' s2] & -> & H2)%list_elem_of_fmap. simpl.
  apply addr_inj; by eapply paths_plain.
Qed.

(** On a document whose keys are plain and distinct every leaf is found
    in the flattened map, at its address. *)
Lemma flatten_lookup d p q s :
  keys_plain d = true → keys_unique d = true →
  (q, s) ∈ paths d → flatten d p !! addr p q = Some s.
Proof.
  intros Hp Hu Hq. rewrite flatten_list_to_map.
  apply elem_of_list_to_map_1.
  - rewrite fmap_reverse, reverse_Permutation. by apply NoDup_leaves.
  - apply elem_of_reverse, list_elem_of_fmap. by exists (q, s).
Qed.

Lemma flatten_lookup_inv d p k s :
  flatten d p !! k = Some s → ∃ q, (q, s) ∈ paths d ∧ k = addr p q.
Proof.
  rewrite flatten_list_to_map.
  intros ([q s'] & [= -> ->] & Hq)%elem_of_list_to_map_2%elem_of_reverse%list_elem_of_fmap.
  eauto.
Qed.

(** Two documents with plain and distinct keys that flatten to the same
    map have the same leaves on the same paths. *)
Lemma flatten_eq_paths d1 d2 p q s :
  keys_plain d1 = true → keys_unique d1 = true → keys_plain d2 = true →
  flatten d1 p = flatten d2 p →
  (q, s) ∈ paths d1 → (q, s) ∈ paths d2.
Proof.
  intros Hp1 Hu1 Hp2 Heq Hq.
  pose proof (flatten_lookup d1 p q s Hp1 Hu1 Hq) as Hl. rewrite Heq in Hl.
  apply flatten_lookup_inv in Hl as (q' & Hq' & Ha).
  apply addr_inj in Ha;
    [by subst|by apply (paths_plain d1 q s)|by apply (paths_plain d2 q' s)].
Qed.

(** ** Documents with the same leaves *)

Lemma elem_of_paths_cons d seg q s :
  keys_unique d = true →
  (seg :: q, s) ∈ paths d ↔ ∃ v, child d seg = Some v ∧ (q, s) ∈ paths v.
Proof.
  intros Hu. rewrite elem_of_paths. destruct d as [s'|vs|kvs].
  - split; [by intros [? _]|by intros (v & ? & _)].
  - split.
    + intros (seg' & v & q' & [= <- <-] & Hc & Hq). exists v.
      split; [|done]. by apply elem_of_children.
    + intros (v & Hc & Hq). exists seg, v, q. split_and!; [done| |done].
      by apply elem_of_children.
  - split.
    + intros (seg' & v & q' & [= <- <-] & Hc & Hq). exists v.
      split; [|done]. by apply elem_of_children.
    + intros (v & Hc & Hq). exists seg, v, q. split_and!; [done| |done].
      by apply elem_of_children.
Qed.

Lemma child_no_empty d seg v :
  no_empty d = true → keys_unique d = true → child d seg = Some v →
  no_empty v = true ∧ keys_unique v = true.
Proof.
  intros Hn Hu Hc%elem_of_children; [|done]. split.
  - by eapply no_empty_child.
  - by eapply keys_unique_child.
Qed.

Lemma child_path d seg v :
  no_empty d = true → keys_unique d = true → child d seg = Some v →
  ∃ q s, (seg :: q, s) ∈ paths d.
Proof.
  intros Hn Hu Hc. destruct (child_no_empty _ _ _ Hn Hu Hc) as [Hnv _].
  destruct (paths_nonempty v Hnv) as (q & s & Hq).
  exists q, s. apply elem_of_paths_cons; eauto.
Qed.

(** Two documents without empty container, with distinct keys in every
    mapping, and with the same leaves on the same paths, are equivalent. *)
Lemma paths_equiv d1 d2 :
  no_empty d1 = true → keys_unique d1 = true →
  no_empty d2 = true → keys_unique d2 = true →
  (∀ q s, (q, s) ∈ paths d1 ↔ (q, s) ∈ paths d2) →
  doc_equiv d1 d2.
Proof.
  revert d2. induction d1 as [s1|d1 IH] using Value_children_ind;
    intros d2 Hn1 Hu1 Hn2 Hu2 Heq.
  { assert (H : ([], s1) ∈ paths d2) by (apply Heq; by apply elem_of_paths).
    apply elem_of_paths in H.
    destruct d2 as [s2|vs2|kvs2]; [|by destruct H as (? & ? & ? & ? & _)..].
    destruct H as [_ ->]. constructor. }
  assert (Hchild : ∀ seg,
            option_Forall2 doc_equiv (child d1 seg) (child d2 seg)).
  { intros seg. destruct (child d1 seg) as [v1|] eqn:Hc1.
    - destruct (child_path _ _ _ Hn1 Hu1 Hc1) as (q & s & Hq).
      apply Heq, elem_of_paths_cons in Hq as (v2 & Hc2 & _); [|done].
      rewrite Hc2. constructor.
      destruct (child_no_empty _ _ _ Hn1 Hu1 Hc1) as [Hnv1 Huv1].
      destruct (child_no_empty _ _ _ Hn2 Hu2 Hc2) as [Hnv2 Huv2].
      rewrite Forall_forall in IH.
      apply (IH (seg, v1)); [by apply elem_of_children|done..|].
      intros q' s'. split; intros Hq'.
      + assert (H : (seg :: q', s') ∈ paths d1)
          by (apply elem_of_paths_cons; eauto).
        apply Heq, elem_of_paths_cons in H as (v2' & Hc2' & H); [|done].
        by simplify_eq.
      + assert (H : (seg :: q', s') ∈ paths d2)
          by (apply elem_of_paths_cons; eauto).
        apply Heq, elem_of_paths_cons in H as (v1' & Hc1' & H); [|done].
        by simplify_eq.
    - destruct (child d2 seg) as [v2|] eqn:Hc2; [|constructor].
      destruct (child_path _ _ _ Hn2 Hu2 Hc2) as (q & s & Hq).
      apply Heq, elem_of_paths_cons in Hq as (v1 & Hc1' & _); [|done].
      congruence. }
  destruct (paths_nonempty d1 Hn1) as (q & s & Hq).
  pose proof Hq as Hq2. apply Heq in Hq2.
  destruct d1 as [s1|vs1|kvs1].
  - apply elem_of_paths in Hq as [-> ->]. apply elem_of_paths in Hq2.
    destruct d2 as [s2|vs2|kvs2]; [|by destruct Hq2 as (? & ? & ? & ? & _)..].
    destruct Hq2 as [_ ->]. constructor.
  - apply elem_of_paths in Hq as (seg & v & q' & -> & Hc & _).
    apply elem_of_enumerate in Hc as (i & -> & _).
    apply elem_of_paths_cons in Hq2 as (v2 & Hc2 & _); [|done].
    destruct d2 as [s2|vs2|kvs2]; [done| |done].
    constructor. apply Forall2_lookup. intros j. apply (Hchild (Idx j)).
  - apply elem_of_paths in Hq as (seg & v & q' & -> & Hc & _).
    apply list_elem_of_fmap in Hc as ([k v'] & [= -> ->] & _).
    apply elem_of_paths_cons in Hq2 as (v2 & Hc2 & _); [|done].
    destruct d2 as [s2|vs2|kvs2]; [done|done|].
    constructor. intros k'. apply (Hchild (Key k')).
Qed.

(** Equivalent documents have the same leaves on the same paths. *)
Lemma doc_equiv_paths q :
  ∀ d1 d2 s, doc_equiv d1 d2 →
    keys_unique d1 = true → keys_unique d2 = true →
    (q, s) ∈ paths d1 ↔ (q, s) ∈ paths d2.
Proof.
  induction q as [|seg q IH]; intros d1 d2 s He Hu1 Hu2.
  - rewrite !elem_of_paths.
    inversion He; subst; [done|..]; split; by intros (? & ? & ? & ? & _).
  - rewrite !elem_of_paths_cons by done.
    assert (Hc : option_Forall2 doc_equiv (child d1 seg) (child d2 seg)).
    { inversion He as [s'|vs1 vs2 Hvs|kvs1 kvs2 Hk]; subst.
      - constructor.
      - destruct seg as [k|i]; [constructor|].
        by apply Forall2_lookup.
      - destruct seg as [k|i]; [|constructor]. apply Hk. }
    destruct (child d1 seg) as [v1|] eqn:Hc1, (child d2 seg) as [v2|] eqn:Hc2;
      inversion Hc as [?? Hv|]; subst;
      [|by split; intros (? & ? & _)].
    assert (keys_unique v1 = true ∧ keys_unique v2 = true) as [Hv1 Hv2].
    { split; eapply keys_unique_child;
        try (eapply elem_of_children; [|done]); done. }
    split; intros (v & [= <-] & Hq); eexists; (split; [done|]);
      by apply (IH v1 v2).
Qed.

(** Equivalent documents with plain and distinct keys flatten to the same
    map. *)
Lemma doc_equiv_flatten d1 d2 p :
  keys_plain d1 = true → keys_unique d1 = true →
  keys_plain d2 = true → keys_unique d2 = true →
  doc_equiv d1 d2 → flatten d1 p = flatten d2 p.
Proof.
  intros Hp1 Hu1 Hp2 Hu2 He.
  assert (Hsub : ∀ d d', keys_plain d' = true → keys_unique d' = true →
            (∀ q s, (q, s) ∈ paths d → (q, s) ∈ paths d') →
            flatten d p ⊆ flatten d' p).
  { intros d d' Hp' Hu' Hq. apply map_subseteq_spec. intros k s Hk.
    apply flatten_lookup_inv in Hk as (q & Hk & ->).
    apply flatten_lookup; auto. }
  apply (anti_symm (⊆)); apply Hsub; try done; intros q s Hq.
  - by apply (doc_equiv_paths q d1 d2 s He Hu1 Hu2).
  - by apply (doc_equiv_paths q d1 d2 s He Hu1 Hu2).
Qed.

(** X29. Flattening loses nothing on a document that the address syntax
    can carry. Take two documents whose keys are not empty, hold no dot and
    no bracket, and are distinct within each mapping. If they are
    equivalent (the same leaves, sequences element by element, mappings key
    by key in any order) they flatten to the same map, under any prefix.
    If neither has an empty mapping or sequence, the converse holds: two
    documents that flatten to the same map are equivalent. *)
Theorem flatten_injective d1 d2 p :
  keys_plain d1 = true → keys_unique d1 = true →
  keys_plain d2 = true → keys_unique d2 = true →
  (doc_equiv d1 d2 → flatten d1 p = flatten d2 p)
  ∧ (no_empty d1 = true → no_empty d2 = true →
     flatten d1 p = flatten d2 p → doc_equiv d1 d2).
Proof.
  intros Hp1 Hu1 Hp2 Hu2. split.
  - by apply doc_equiv_flatten.
  - intros Hn1 Hn2 Heq. apply paths_equiv; [done..|].
    intros q s. split.
    + by apply (flatten_eq_paths d1 d2 p).
    + by apply (flatten_eq_paths d2 d1 p).
Qed.

Lemma flatten_injective_witness :
  keys_plain settings = true ∧ keys_unique settings = true
  ∧ keys_plain settings_reordered = true
  ∧ keys_unique settings_reordered = true
  ∧ no_empty settings = true ∧ no_empty settings_reordered = true
  ∧ flatten settings "" = flatten settings_reordered ""
  ∧ doc_equiv settings settings_reordered.
Proof.
  split_and!; try reflexivity.
  by apply (flatten_injective settings settings_reordered "").
Defined.

(* ===================================================================== *)
(** * The order of the keys in the snapshots                              *)
(* ===================================================================== *)

Lemma doc_equiv_nil_dict : doc_equiv (VDict []) (VDict []).
Proof. constructor. intros k. constructor. Qed.

Lemma doc_equiv_truthy d d' : doc_equiv d d' → truthy d = truthy d'.
Proof.
  inversion 1 as [s|vs vs' Hvs|kvs kvs' Hk]; subst; simpl; [done|..].
  - by destruct Hvs.
  - destruct kvs as [|[k v] kvs], kvs' as [|[k' v'] kvs']; try done.
    + specialize (Hk k'). simpl in Hk. rewrite String.eqb_refl in Hk.
      inversion Hk.
    + specialize (Hk k). simpl in Hk. rewrite String.eqb_refl in Hk.
      inversion Hk.
Qed.

Lemma doc_equiv_or_empty d d' :
  doc_equiv d d' → doc_equiv (or_empty d) (or_empty d').
Proof.
  intros He. unfold or_empty. rewrite <- (doc_equiv_truthy _ _ He).
  destruct (truthy d); [done|apply doc_equiv_nil_dict].
Qed.

Lemma doc_equiv_py_get d d' k :
  doc_equiv d d' → option_Forall2 doc_equiv (py_get d k) (py_get d' k).
Proof.
  inversion 1 as [s|vs vs' Hvs|kvs kvs' Hk]; subst; simpl; try constructor.
  destruct (Hk k); simpl; [done|constructor].
Qed.

Lemma elem_of_keys kvs k : k ∈ kvs.*1 ↔ is_Some (dict_get kvs k).
Proof.
  induction kvs as [|[k' v] kvs IH]; simpl.
  - split; [by intros ?%elem_of_nil|by intros [? ?]].
  - rewrite elem_of_cons, IH.
    destruct (String.eqb_spec k' k) as [->|Hne]; [by split; [eexists|left]|].
    split; [by intros [?|?]|auto].
Qed.

Lemma doc_equiv_py_keys d d' :
  doc_equiv d d' →
  (list_to_set <$> py_keys d : option (gset string)) = list_to_set <$> py_keys d'.
Proof.
  inversion 1 as [s|vs vs' Hvs|kvs kvs' Hk]; subst; simpl; try done.
  f_equal. apply set_eq. intros k.
  rewrite !elem_of_list_to_set, !elem_of_keys.
  destruct (Hk k); split; by intros [? ?] || by eexists.
Qed.

Lemma iface_names_equiv d d' : doc_equiv d d' → iface_names d = iface_names d'.
Proof.
  intros He. unfold iface_names.
  destruct (doc_equiv_py_get _ _ "network" He) as [net net' Hn|]; simpl; [|done].
  apply doc_equiv_or_empty in Hn.
  destruct (doc_equiv_py_get _ _ "interfaces" Hn) as [ifs ifs' Hi|]; simpl; [|done].
  apply doc_equiv_or_empty, doc_equiv_py_keys in Hi.
  destruct (py_keys (or_empty ifs)), (py_keys (or_empty ifs'));
    simpl in *; congruence.
Qed.

Lemma compute_irq_affinity_present_equiv d d' :
  doc_equiv d d' →
  compute_irq_affinity_present d = compute_irq_affinity_present d'.
Proof.
  intros He. unfold compute_irq_affinity_present.
  destruct (doc_equiv_py_get _ _ "irq" He) as [irq irq' Hn|]; simpl; [|done].
  apply doc_equiv_or_empty in Hn.
  destruct (doc_equiv_py_get _ _ "smp_affinity_list" Hn) as [aff aff' Hi|];
    simpl; [|done].
  by apply doc_equiv_truthy, doc_equiv_or_empty.
Qed.

(** X30. The result of a run does not depend on the order of the keys in
    the two snapshots. When every key of the snapshots is not empty, holds
    no dot and no bracket, and occurs once in its mapping, equivalent
    snapshots give the same result, the same exception included. *)
Theorem diff_dumps_key_order fr old_doc new_doc old_doc' new_doc' only_changed :
  keys_plain old_doc = true → keys_unique old_doc = true →
  keys_plain old_doc' = true → keys_unique old_doc' = true →
  keys_plain new_doc = true → keys_unique new_doc = true →
  keys_plain new_doc' = true → keys_unique new_doc' = true →
  doc_equiv old_doc old_doc' → doc_equiv new_doc new_doc' →
  diff_dumps fr old_doc new_doc only_changed
  = diff_dumps fr old_doc' new_doc' only_changed.
Proof.
  intros Hpo Huo Hpo' Huo' Hpn Hun Hpn' Hun' Ho Hn.
  rewrite !diff_dumps_group.
  rewrite (iface_names_equiv _ _ Ho), (iface_names_equiv _ _ Hn).
  destruct (iface_names old_doc') as [O|]; simpl; [|done].
  destruct (iface_names new_doc') as [N|]; simpl; [|done].
  do 2 f_equal. unfold emitted, leaf_entries, diff_context. f_equal.
  rewrite (doc_equiv_flatten old_doc old_doc' "") by done.
  rewrite (doc_equiv_flatten new_doc new_doc' "") by done.
  by rewrite (compute_irq_affinity_present_equiv _ _ Ho),
             (compute_irq_affinity_present_equiv _ _ Hn).
Qed.

Lemma diff_dumps_key_order_witness :
  doc_equiv settings settings_reordered
  ∧ diff_dumps repr_nan settings kernel_new false
    = diff_dumps repr_nan settings_reordered kernel_new false.
Proof.
  assert (He : doc_equiv settings settings_reordered).
  { apply paths_equiv; try reflexivity. intros q s. split.
    - by apply (flatten_eq_paths settings settings_reordered "").
    - by apply (flatten_eq_paths settings_reordered settings ""). }
  split; [exact He|].
  apply diff_dumps_key_order; try reflexivity; [exact He|].
  apply paths_equiv; reflexivity.
Defined.
